(** * dsm / lemon glue code: the standard-input reader and the OCaml binding

    A shallow embedding of [src/lemon/main.c] and
    [src/lemon/grammar_stubs.c], and the properties of the buffer
    accumulation loop, of the exit paths and of the allocate/release
    discipline around the external parser [parse_to_string].

    - [main] is embedded as a deterministic machine with one program point
      per source line, so that statements about "every point" of the loop
      are statements about every reachable machine state.
    - The C heap is a finite map from addresses to blocks of cells; a cell
      that was never written is [None].  What C leaves undefined (a write
      outside a block, reading a string through a null or dangling pointer,
      releasing something that is not a live malloc'ed block) is the
      outcome [Undefined].
    - [malloc] and [realloc] may fail: the allocator is a parameter that
      answers each request (its position in the run, its size).
    - [size_t] is the 64-bit unsigned type of LP64 targets; its
      wrap-around is written out. *)

From Stdlib Require Import ZArith Lia Strings.Byte String.
From stdpp Require Import base numbers option list gmap.

Local Open Scope Z_scope.

(** ** Machine integers *)

Definition SIZE_MAX : Z := 2 ^ 64 - 1.
Definition PTRDIFF_MAX : Z := 2 ^ 63 - 1.
Definition EOF : Z := -1.
Definition EXIT_SUCCESS : Z := 0.
Definition EXIT_FAILURE : Z := 1.

(** Arithmetic on [size_t] is modulo [SIZE_MAX + 1]. *)
Definition size_t (z : Z) : Z := z mod (SIZE_MAX + 1).

(** [fgetc] hands a byte back as an [int] holding an [unsigned char]. *)
Definition int_of_byte (b : byte) : Z := Z.of_N (Byte.to_N b).

(** [fgetc(stdin)]: the next byte and what is left of the stream, or [EOF]
    at its end. *)
Definition fgetc (stdin : list byte) : Z * list byte :=
  match stdin with
  | b :: rest => (int_of_byte b, rest)
  | [] => (EOF, [])
  end.

(** The conversion [(char)c]. *)
Definition char_of_int (c : Z) : byte :=
  match Byte.of_N (Z.to_N (c mod 256)) with
  | Some b => b
  | None => x00
  end.

Definition bytes (s : string) : list byte := list_byte_of_string s.

(** The newline character of the C literals. *)
Definition nl : list byte := [x0a].

(** ** The heap *)

Abbreviation ptr := N (only parsing).
Definition NULL : ptr := 0%N.

(** Who owns a block: the C allocator, or the OCaml runtime. *)
Inductive owner := Malloced | Managed.

Record block := Block {
  blk_owner : owner;
  blk_cells : list (option byte)
}.

(** What an allocation-tracking harness records. *)
Inductive heap_event :=
| HAlloc (p : ptr) (n : Z)
| HRelease (p : ptr).

Record heap := Heap {
  h_blocks : gmap N block;
  h_requests : nat;
  h_log : list heap_event
}.

Definition empty_heap : heap := Heap ∅ 0 [].

(** The allocator: does the [k]-th request, for [n] bytes, succeed? *)
Abbreviation allocator := (nat → Z → bool) (only parsing).

(** An address that is neither null nor in use. *)
Definition fresh_addr (bl : gmap N block) : ptr :=
  fresh ({[NULL]} ∪ dom bl : gset N).

Definition uninit (n : Z) : list (option byte) := replicate (Z.to_nat n) None.

Definition malloc (al : allocator) (n : Z) (h : heap) : ptr * heap :=
  let '(Heap bl k log) := h in
  if al k n then
    let p := fresh_addr bl in
    (p, Heap (<[p := Block Malloced (uninit n)]> bl) (S k) (log ++ [HAlloc p n]))
  else (NULL, Heap bl (S k) log).

(** [realloc]: on success the contents are kept up to the smaller of the two
    sizes and the old block is gone; on failure the old block is untouched. *)
Definition resize (n : Z) (cells : list (option byte)) : list (option byte) :=
  take (Z.to_nat n) cells ++ uninit (n - Z.of_nat (length cells)).

Definition realloc (al : allocator) (p : ptr) (n : Z) (h : heap)
  : option (ptr * heap) :=
  if decide (p = NULL) then Some (malloc al n h) else
  let '(Heap bl k log) := h in
  match bl !! p with
  | Some (Block Malloced cells) =>
      if al k n then
        let q := fresh_addr bl in
        Some (q, Heap (<[q := Block Malloced (resize n cells)]> (delete p bl))
                      (S k) (log ++ [HRelease p; HAlloc q n]))
      else Some (NULL, Heap bl (S k) log)
  | _ => None
  end.

Definition free (p : ptr) (h : heap) : option heap :=
  if decide (p = NULL) then Some h else
  let '(Heap bl k log) := h in
  match bl !! p with
  | Some (Block Malloced _) => Some (Heap (delete p bl) k (log ++ [HRelease p]))
  | _ => None
  end.

(** [p[i] = b] *)
Definition store (p : ptr) (i : Z) (b : byte) (h : heap) : option heap :=
  if decide (p = NULL) then None else
  let '(Heap bl k log) := h in
  match bl !! p with
  | Some (Block o cells) =>
      if decide (0 ≤ i < Z.of_nat (length cells)) then
        Some (Heap (<[p := Block o (<[Z.to_nat i := Some b]> cells)]> bl) k log)
      else None
  | None => None
  end.

(** The string that starts a list of cells: the bytes before the first null.
    There is none when an unwritten cell or the end of the block comes
    first. *)
Fixpoint cstring_cells (cells : list (option byte)) : option (list byte) :=
  match cells with
  | [] => None
  | None :: _ => None
  | Some b :: rest =>
      if Byte.eqb b x00 then Some []
      else match cstring_cells rest with
           | Some s => Some (b :: s)
           | None => None
           end
  end.

(** The bytes of [w] before its first null. *)
Fixpoint until_null (w : list byte) : list byte :=
  match w with
  | [] => []
  | b :: rest => if Byte.eqb b x00 then [] else b :: until_null rest
  end.

(** What [%s], [strlen] and the like read through [p]. *)
Definition cstring (h : heap) (p : ptr) : option (list byte) :=
  if decide (p = NULL) then None else
  match h_blocks h !! p with
  | Some blk => cstring_cells (blk_cells blk)
  | None => None
  end.

Definition is_alloc (e : heap_event) : bool :=
  match e with HAlloc _ _ => true | HRelease _ => false end.

Definition is_release (e : heap_event) : bool :=
  match e with HAlloc _ _ => false | HRelease _ => true end.

(** The two counters of the harness. *)
Definition allocations (h : heap) : nat :=
  length (List.filter is_alloc (h_log h)).

Definition releases (h : heap) : nat :=
  length (List.filter is_release (h_log h)).

(** ** The external parser

    [extern char *parse_to_string(char *input)] is not part of these
    sources.  It receives the heap and a pointer, and hands back the heap as
    it left it and a pointer; [None] stands for a call whose own behaviour
    is undefined. *)
Abbreviation parser := (heap → N → option (heap * N)) (only parsing).

(** The stub of the tests: a parser that echoes its input in a buffer of its
    own, as [strdup] does; its result is null when that allocation fails. *)
Definition fill (p : ptr) (content : list byte) (h : heap) : heap :=
  let '(Heap bl k log) := h in
  match bl !! p with
  | Some (Block o cells) =>
      Heap (<[p := Block o ((Some <$> content) ++ drop (length content) cells)]> bl)
           k log
  | None => h
  end.

Definition echo_parser (al : allocator) (h : heap) (input : ptr)
  : option (heap * ptr) :=
  match cstring h input with
  | Some s =>
      let '(p, h1) := malloc al (Z.of_nat (length s) + 1) h in
      if decide (p = NULL) then Some (h1, NULL)
      else Some (fill p (s ++ [x00]) h1, p)
  | None => None
  end.

(** A parser that fails by returning null and touches nothing. *)
Definition null_parser (h : heap) (input : ptr) : option (heap * ptr) :=
  Some (h, NULL).

(** ** [main] (src/lemon/main.c)

    One program point per line of [main] that does something; the name is
    the line number. *)
Inductive pc :=
| L26 | L27 | L28 | L29 | L30 | L31 | L32 | L34
| L37 | L38 | L39 | L40 | L41 | L42 | L43 | L44 | L46 | L48
| L51 | L52 | L54 | L55 | L56 | L57.

(** What [main] (or the binding) itself does to the outside, in order. *)
Inductive event :=
| EvDebug (line : Z) (msg : list byte)
| EvMalloc (n : Z) (p : ptr)
| EvRealloc (p : ptr) (n : Z) (q : ptr)
| EvFree (p : ptr)
| EvPerror (msg : list byte)
| EvParse (arg : ptr) (result : ptr)
| EvPrintf (out : list byte)
| EvCopyString (s : ptr) (v : ptr).

(** The locals of [main], the heap, what is left of standard input and the
    events so far.  A local holds 0 until its declaration is reached; no
    line reads it earlier. *)
Record machine := Machine {
  m_pc : pc;
  capacity : Z;
  size : Z;
  buffer : N;
  c : Z;
  newbuf : N;
  res : N;
  m_heap : heap;
  m_stdin : list byte;
  m_trace : list event
}.

Inductive status :=
| Running (m : machine)
| Exited (code : Z) (m : machine)
| Undefined.

Definition main_entry (stdin : list byte) : machine :=
  Machine L26 0 0 NULL 0 NULL NULL empty_heap stdin [].

Section Main.

Variable al : allocator.
Variable parse_to_string : parser.

Definition main_step (m : machine) : status :=
  let '(Machine l cap sz buf ch nb rs h inp tr) := m in
  match l with
  | L26 => (* DEBUG_PRINT("Starting main function"); *)
      Running (Machine L27 cap sz buf ch nb rs h inp
                 (tr ++ [EvDebug 26 (bytes "Starting main function")]))
  | L27 => (* size_t capacity = 1024; *)
      Running (Machine L28 1024 sz buf ch nb rs h inp tr)
  | L28 => (* size_t size = 0; *)
      Running (Machine L29 cap 0 buf ch nb rs h inp tr)
  | L29 => (* char *buffer = malloc(capacity); *)
      let '(p, h') := malloc al cap h in
      Running (Machine L30 cap sz p ch nb rs h' inp (tr ++ [EvMalloc cap p]))
  | L30 => (* if (!buffer) *)
      if decide (buf = NULL)
      then Running (Machine L31 cap sz buf ch nb rs h inp tr)
      else Running (Machine L34 cap sz buf ch nb rs h inp tr)
  | L31 => (* perror("Could not allocate buffer with capacity"); *)
      Running (Machine L32 cap sz buf ch nb rs h inp
                 (tr ++ [EvPerror (bytes "Could not allocate buffer with capacity")]))
  | L32 => (* exit(EXIT_FAILURE); *)
      Exited EXIT_FAILURE m
  | L34 => (* DEBUG_PRINT("Initial buffer allocated"); *)
      Running (Machine L37 cap sz buf ch nb rs h inp
                 (tr ++ [EvDebug 34 (bytes "Initial buffer allocated")]))
  | L37 => (* while ((c = fgetc(stdin)) != EOF) *)
      let '(ch', inp') := fgetc inp in
      if decide (ch' ≠ EOF)
      then Running (Machine L38 cap sz buf ch' nb rs h inp' tr)
      else Running (Machine L51 cap sz buf ch' nb rs h inp' tr)
  | L38 => (* if (size + 1 >= capacity) *)
      if decide (size_t (sz + 1) >= cap)
      then Running (Machine L39 cap sz buf ch nb rs h inp tr)
      else Running (Machine L48 cap sz buf ch nb rs h inp tr)
  | L39 => (* capacity *= 2; *)
      Running (Machine L40 (size_t (cap * 2)) sz buf ch nb rs h inp tr)
  | L40 => (* char *newbuf = realloc(buffer, capacity); *)
      match realloc al buf cap h with
      | Some (q, h') =>
          Running (Machine L41 cap sz buf ch q rs h' inp (tr ++ [EvRealloc buf cap q]))
      | None => Undefined
      end
  | L41 => (* if (!newbuf) *)
      if decide (nb = NULL)
      then Running (Machine L42 cap sz buf ch nb rs h inp tr)
      else Running (Machine L46 cap sz buf ch nb rs h inp tr)
  | L42 => (* free(buffer); *)
      match free buf h with
      | Some h' => Running (Machine L43 cap sz buf ch nb rs h' inp (tr ++ [EvFree buf]))
      | None => Undefined
      end
  | L43 => (* perror("Could not reallocate buffer with capacity"); *)
      Running (Machine L44 cap sz buf ch nb rs h inp
                 (tr ++ [EvPerror (bytes "Could not reallocate buffer with capacity")]))
  | L44 => (* exit(EXIT_FAILURE); *)
      Exited EXIT_FAILURE m
  | L46 => (* buffer = newbuf; *)
      Running (Machine L48 cap sz nb ch nb rs h inp tr)
  | L48 => (* buffer[size++] = (char)c; *)
      match store buf sz (char_of_int ch) h with
      | Some h' => Running (Machine L37 cap (size_t (sz + 1)) buf ch nb rs h' inp tr)
      | None => Undefined
      end
  | L51 => (* buffer[size] = '\0'; *)
      match store buf sz x00 h with
      | Some h' => Running (Machine L52 cap sz buf ch nb rs h' inp tr)
      | None => Undefined
      end
  | L52 => (* DEBUG_PRINT("Stdin read. Content: %s", buffer); *)
      match cstring h buf with
      | Some s =>
          Running (Machine L54 cap sz buf ch nb rs h inp
                     (tr ++ [EvDebug 52 (bytes "Stdin read. Content: " ++ s)]))
      | None => Undefined
      end
  | L54 => (* char *res = parse_to_string(buffer); *)
      match parse_to_string h buf with
      | Some (h', r) =>
          Running (Machine L55 cap sz buf ch nb r h' inp (tr ++ [EvParse buf r]))
      | None => Undefined
      end
  | L55 => (* printf("RESULT:\n%s\n", res); *)
      match cstring h rs with
      | Some s =>
          Running (Machine L56 cap sz buf ch nb rs h inp
                     (tr ++ [EvPrintf (bytes "RESULT:" ++ nl ++ s ++ nl)]))
      | None => Undefined
      end
  | L56 => (* free(res); *)
      match free rs h with
      | Some h' => Running (Machine L57 cap sz buf ch nb rs h' inp (tr ++ [EvFree rs]))
      | None => Undefined
      end
  | L57 => (* return EXIT_SUCCESS; *)
      Exited EXIT_SUCCESS m
  end.

(** Running [main] for at most [fuel] steps. *)
Fixpoint main_run (fuel : nat) (m : machine) : status :=
  match fuel with
  | O => Running m
  | S fuel' =>
      match main_step m with
      | Running m' => main_run fuel' m'
      | st => st
      end
  end.

(** [main] on a given standard input, for at most [fuel] steps. *)
Definition main (stdin : list byte) (fuel : nat) : status :=
  main_run fuel (main_entry stdin).

(** The states [main] goes through on a given standard input. *)
Inductive reachable (stdin : list byte) : machine → Prop :=
| reach_entry : reachable stdin (main_entry stdin)
| reach_step m m' :
    reachable stdin m → main_step m = Running m' → reachable stdin m'.

End Main.

(** What [printf] sent to standard output. *)
Definition stdout_of (tr : list event) : list byte :=
  flat_map (λ e, match e with EvPrintf out => out | _ => [] end) tr.

Definition is_perror (e : event) : bool :=
  match e with EvPerror _ => true | _ => false end.

Definition is_parse (e : event) : bool :=
  match e with EvParse _ _ => true | _ => false end.

Definition is_free (e : event) : bool :=
  match e with EvFree _ => true | _ => false end.

(** A buffer allocation of [main] that failed. *)
Definition is_refusal (e : event) : bool :=
  match e with
  | EvMalloc _ p => N.eqb p NULL
  | EvRealloc _ _ q => N.eqb q NULL
  | _ => false
  end.

(** ** [ocaml_parse_to_string] (src/lemon/grammar_stubs.c)

    An OCaml string value is the address of a block the runtime owns, holding
    the text and the final null the runtime keeps after it.  [CAMLparam1]
    and [CAMLreturn] register and unregister a root for the collector and
    change nothing here.

    The runtime allocates a string of at most [Max_young_wosize] words in
    its minor heap, which does not raise; a longer one comes from the major
    heap ([caml_alloc_shr]), which raises [Out_of_memory] when it has no
    room.  Whether it has room is a parameter, as the allocator is for
    [malloc]; the exception leaves the binding at once.  The harness does
    not record the runtime's blocks. *)

(** The runtime: has its major heap room for a block of that many words? *)
Abbreviation runtime := (Z → bool) (only parsing).

Definition Max_young_wosize : Z := 256.

(** The words of a string of [len] bytes:
    [(len + sizeof (value)) / sizeof (value)], with 8-byte values. *)
Definition string_wosize (len : Z) : Z := (len + 8) / 8.

(** Can the runtime allocate a string of [len] bytes? *)
Definition has_room (rt : runtime) (len : nat) : bool :=
  (string_wosize (Z.of_nat len) <=? Max_young_wosize)
  || rt (string_wosize (Z.of_nat len)).

(** A string value with the text [content], in a block of the runtime. *)
Definition string_value (content : list byte) (h : heap) : heap * ptr :=
  let '(Heap bl k log) := h in
  let v := fresh_addr bl in
  (Heap (<[v := Block Managed (Some <$> (content ++ [x00]))]> bl) k log, v).

(** [caml_alloc_string] and the copy into it: the new string value, or
    [None] when the runtime raises [Out_of_memory]. *)
Definition caml_alloc_string (rt : runtime) (content : list byte) (h : heap)
  : option (heap * ptr) :=
  if has_room rt (length content) then Some (string_value content h)
  else None.

(** [String_val(v)]: the bytes of a string value start at its address. *)
Definition String_val (v : ptr) : ptr := v.

Inductive copy_result :=
| Copied (h : heap) (v : ptr)
| CopyOutOfMemory
| CopyUndefined.

(** [caml_copy_string(s)] measures [s] as a C string and copies it into a
    fresh string value, or raises [Out_of_memory]. *)
Definition caml_copy_string (rt : runtime) (s : ptr) (h : heap)
  : copy_result :=
  match cstring h s with
  | Some content =>
      match caml_alloc_string rt content h with
      | Some (h', v) => Copied h' v
      | None => CopyOutOfMemory
      end
  | None => CopyUndefined
  end.

(** The text of a string value, as the managed caller sees it. *)
Definition managed_text (h : heap) (v : ptr) : option (list byte) :=
  match h_blocks h !! v with
  | Some (Block Managed cells) =>
      match mapM id cells with
      | Some bs => Some (take (length bs - 1)%nat bs)
      | None => None
      end
  | _ => None
  end.

(** How a call of the binding ends: it returns a value, or the exception
    [Out_of_memory] of the runtime leaves it, or it is undefined. *)
Inductive call_result :=
| Returns (v : N) (h : heap) (tr : list event)
| Raises (h : heap) (tr : list event)
| UndefinedCall.

Definition ocaml_parse_to_string (rt : runtime) (parse_to_string : parser)
    (v_input : ptr) (h : heap) : call_result :=
  (* const char *input = String_val(v_input); *)
  let input := String_val v_input in
  (* char *result = parse_to_string((char* )input); *)
  match parse_to_string h input with
  | None => UndefinedCall
  | Some (h1, result) =>
      (* value v_res = caml_copy_string(result); *)
      match caml_copy_string rt result h1 with
      | CopyUndefined => UndefinedCall
      | CopyOutOfMemory =>
          (* the exception skips the lines below *)
          Raises h1 [EvParse input result]
      | Copied h2 v_res =>
          (* free(result); *)
          match free result h2 with
          | None => UndefinedCall
          | Some h3 =>
              (* CAMLreturn(v_res); *)
              Returns v_res h3
                [EvParse input result; EvCopyString result v_res; EvFree result]
          end
      end
  end.

(** A runtime whose major heap is full, and one that always has room. *)
Definition major_heap_full : Z → bool := λ _, false.
Definition major_heap_free : Z → bool := λ _, true.

(** ** Vocabulary of the statements *)

(** The allocator never hands out more than [PTRDIFF_MAX] bytes: no object
    of C is larger. *)
Definition bounded_allocator (al : allocator) : Prop :=
  ∀ k n, al k n = true → n ≤ PTRDIFF_MAX.

(** The heap holds exactly one block, at [p], malloc'ed, of [cap] cells:
    the bytes [written] and then cells never written. *)
Definition holds (h : heap) (p : ptr) (cap : Z) (written : list byte) : Prop :=
  p ≠ NULL ∧
  h_blocks h =
    {[ p := Block Malloced
              ((Some <$> written) ++ uninit (cap - Z.of_nat (length written))) ]}.

(** A capacity reached from 1024 by doubling. *)
Definition geometric (cap : Z) : Prop := ∃ k : nat, cap = 1024 * 2 ^ Z.of_nat k.

(** So far no buffer allocation failed, the parser was not called, nothing
    was released and no diagnostic was written. *)
Definition quiet (tr : list event) : Prop :=
  existsb is_refusal tr = false ∧ existsb is_parse tr = false
  ∧ existsb is_free tr = false ∧ existsb is_perror tr = false.

(** The parser's result can be printed, copied and released: it is a live
    malloc'ed block that holds a terminated string. *)
Definition usable (h : heap) (r : ptr) : Prop :=
  is_Some (cstring h r) ∧
  ∃ cells, h_blocks h !! r = Some (Block Malloced cells).

(** The runtime can copy the string at [r]: it is readable and the runtime
    has room for a string of its length. *)
Definition copy_fits (rt : runtime) (h : heap) (r : ptr) : Prop :=
  ∃ s, cstring h r = Some s ∧ has_room rt (length s) = true.

(** From the creation of the buffer on: [capacity] and [size] are both
    initialised when line 29 is reached. *)
Definition initialised (l : pc) : bool :=
  match l with
  | L26 | L27 | L28 => false
  | _ => true
  end.

(** [capacity] is one of the doublings of 1024, leaves room for the byte at
    [size] and is a size the allocator can have granted. *)
Definition sound_capacity (cap sz : Z) : Prop :=
  geometric cap ∧ sz + 1 ≤ cap ∧ cap ≤ PTRDIFF_MAX.

(** What is true at each line of [main], on standard input [stdin]. *)
Definition Inv (stdin : list byte) (m : machine) : Prop :=
  let '(Machine l cap sz buf ch nb rs h inp tr) := m in
  match l with
  | L26 | L27 =>
      h_blocks h = ∅ ∧ inp = stdin ∧ quiet tr
  | L28 =>
      cap = 1024 ∧ h_blocks h = ∅ ∧ inp = stdin ∧ quiet tr
  | L29 =>
      cap = 1024 ∧ sz = 0 ∧ h_blocks h = ∅ ∧ inp = stdin ∧ quiet tr
  | L30 =>
      cap = 1024 ∧ sz = 0 ∧ inp = stdin ∧
      ((buf = NULL ∧ h_blocks h = ∅ ∧
        ∃ tr0, tr = tr0 ++ [EvMalloc cap NULL] ∧ quiet tr0)
       ∨ (holds h buf cap [] ∧ quiet tr))
  | L31 =>
      cap = 1024 ∧ sz = 0 ∧ h_blocks h = ∅ ∧
      ∃ tr0, tr = tr0 ++ [EvMalloc cap NULL] ∧ quiet tr0
  | L32 =>
      cap = 1024 ∧ sz = 0 ∧ h_blocks h = ∅ ∧
      ∃ tr0 msg, tr = tr0 ++ [EvMalloc cap NULL; EvPerror msg] ∧ quiet tr0
  | L34 =>
      cap = 1024 ∧ sz = 0 ∧ inp = stdin ∧ holds h buf cap [] ∧ quiet tr
  | L37 =>
      ∃ w, stdin = w ++ inp ∧ sz = Z.of_nat (length w) ∧
           holds h buf cap w ∧ sound_capacity cap sz ∧ quiet tr
  | L38 =>
      ∃ w b, stdin = w ++ b :: inp ∧ ch = int_of_byte b ∧
             sz = Z.of_nat (length w) ∧
             holds h buf cap w ∧ sound_capacity cap sz ∧ quiet tr
  | L39 =>
      ∃ w b, stdin = w ++ b :: inp ∧ ch = int_of_byte b ∧
             sz = Z.of_nat (length w) ∧ sz + 1 = cap ∧
             holds h buf cap w ∧ sound_capacity cap sz ∧ quiet tr
  | L40 =>
      ∃ w b old, stdin = w ++ b :: inp ∧ ch = int_of_byte b ∧
             sz = Z.of_nat (length w) ∧ sz + 1 = old ∧ cap = 2 * old ∧
             holds h buf old w ∧ sound_capacity old sz ∧ quiet tr
  | L41 =>
      ∃ w b old, stdin = w ++ b :: inp ∧ ch = int_of_byte b ∧
             sz = Z.of_nat (length w) ∧ sz + 1 = old ∧ cap = 2 * old ∧
             geometric old ∧
             ((nb = NULL ∧ holds h buf old w ∧
               ∃ tr0, tr = tr0 ++ [EvRealloc buf cap NULL] ∧ quiet tr0)
              ∨ (holds h nb cap w ∧ cap ≤ PTRDIFF_MAX ∧ quiet tr))
  | L42 =>
      ∃ w old, sz = Z.of_nat (length w) ∧ sz + 1 = old ∧ cap = 2 * old ∧
             holds h buf old w ∧
             ∃ tr0, tr = tr0 ++ [EvRealloc buf cap NULL] ∧ quiet tr0
  | L43 =>
      0 ≤ sz ∧ sz + 1 ≤ cap ∧ h_blocks h = ∅ ∧
      ∃ tr0, tr = tr0 ++ [EvRealloc buf cap NULL; EvFree buf] ∧ quiet tr0
  | L44 =>
      0 ≤ sz ∧ sz + 1 ≤ cap ∧ h_blocks h = ∅ ∧
      ∃ tr0 msg,
        tr = tr0 ++ [EvRealloc buf cap NULL; EvFree buf; EvPerror msg] ∧
        quiet tr0
  | L46 =>
      ∃ w b, stdin = w ++ b :: inp ∧ ch = int_of_byte b ∧
             sz = Z.of_nat (length w) ∧ sz + 2 ≤ cap ∧
             holds h nb cap w ∧ sound_capacity cap sz ∧ quiet tr
  | L48 =>
      ∃ w b, stdin = w ++ b :: inp ∧ ch = int_of_byte b ∧
             sz = Z.of_nat (length w) ∧ sz + 2 ≤ cap ∧
             holds h buf cap w ∧ sound_capacity cap sz ∧ quiet tr
  | L51 =>
      inp = [] ∧ sz = Z.of_nat (length stdin) ∧
      holds h buf cap stdin ∧ sound_capacity cap sz ∧ quiet tr
  | L52 | L54 =>
      sz = Z.of_nat (length stdin) ∧
      holds h buf cap (stdin ++ [x00]) ∧ sound_capacity cap sz ∧ quiet tr
  | L55 =>
      sz = Z.of_nat (length stdin) ∧ sound_capacity cap sz ∧
      ∃ tr0, tr = tr0 ++ [EvParse buf rs] ∧ quiet tr0
  | L56 =>
      sz = Z.of_nat (length stdin) ∧ sound_capacity cap sz ∧
      ∃ tr0 out, tr = tr0 ++ [EvParse buf rs; EvPrintf out] ∧ quiet tr0
  | L57 =>
      sz = Z.of_nat (length stdin) ∧ sound_capacity cap sz ∧
      ∃ tr0 out,
        tr = tr0 ++ [EvParse buf rs; EvPrintf out; EvFree rs] ∧ quiet tr0
  end.

(** An allocator that grants whatever C can represent. *)
Definition grant_all : nat → Z → bool := λ _ n, Z.leb n PTRDIFF_MAX.

(** An allocator that refuses its [k]-th request and grants the others. *)
Definition refuse_nth (k : nat) : nat → Z → bool :=
  λ i n, negb (Nat.eqb i k) && Z.leb n PTRDIFF_MAX.

(** ** Vocabulary of the further properties *)

(** The lines of [main] up to the call of the parser: what they do depends
    on the input and the allocator only. *)
Definition before_parse (l : pc) : bool :=
  match l with
  | L54 | L55 | L56 | L57 => false
  | _ => true
  end.

(** A [realloc] of [main] that succeeded. *)
Definition is_grown (e : event) : bool :=
  match e with
  | EvRealloc _ _ q => negb (N.eqb q NULL)
  | _ => false
  end.

(** How many times [main] has grown its buffer. *)
Definition reallocations (tr : list event) : nat :=
  length (List.filter is_grown tr).

(** An allocator that grants everything; the parser may have one of its
    own. *)
Definition always_grant : nat → Z → bool := λ _ _, true.

(** The contract of the external parser: given a terminated string it returns
    and its result is usable. *)
Definition honours_contract (parse_to_string : parser) : Prop :=
  ∀ h p s, cstring h p = Some s →
    ∃ h1 r, parse_to_string h p = Some (h1, r) ∧ usable h1 r.

(** [capacity] is the initial one or at most twice [n]. *)
Definition tight (cap n : Z) : Prop := cap = 1024 ∨ cap ≤ 2 * n.

(** At each line of [main]: the capacity is never more than twice what the
    buffer is about to hold. *)
Definition Tight (m : machine) : Prop :=
  match m_pc m with
  | L26 | L27 | L28 => True
  | L29 | L30 | L31 | L32 | L34 => capacity m = 1024
  | L40 | L41 | L42 | L43 | L44 | L46 | L48 => tight (capacity m) (size m + 1)
  | _ => tight (capacity m) (size m)
  end.

(** At each line of [main]: the capacity is 1024 doubled once per successful
    [realloc]; between the doubling of line 39 and a successful [realloc]
    it is one doubling ahead. *)
Definition Counted (m : machine) : Prop :=
  let g := 1024 * 2 ^ Z.of_nat (reallocations (m_trace m)) in
  match m_pc m with
  | L26 | L27 => reallocations (m_trace m) = 0%nat
  | L40 | L42 | L43 | L44 => capacity m = 2 * g
  | L41 => if decide (newbuf m = NULL) then capacity m = 2 * g
           else capacity m = g
  | _ => capacity m = g
  end.

(** At each line of [main]: nothing is on standard output before line 55
    has run, and then it is the header, a string and a newline. *)
Definition Printed (m : machine) : Prop :=
  match m_pc m with
  | L56 | L57 =>
      ∃ s, stdout_of (m_trace m) = bytes "RESULT:" ++ nl ++ s ++ nl
  | _ => stdout_of (m_trace m) = []
  end.

(** * Properties *)

(** ** Bytes, cells and blocks *)

Lemma char_of_int_of_byte (b : byte) : char_of_int (int_of_byte b) = b.
Proof.
  unfold char_of_int, int_of_byte.
  assert (H : Z.to_N (Z.of_N (Byte.to_N b) mod 256) = Byte.to_N b).
  { pose proof (Byte.to_N_bounded b) as Hb.
    rewrite Z.mod_small by lia. apply N2Z.id. }
  rewrite H, Byte.of_to_N. reflexivity.
Qed.

Lemma int_of_byte_not_EOF (b : byte) : int_of_byte b ≠ EOF.
Proof. unfold int_of_byte, EOF. lia. Qed.

Lemma PTRDIFF_MAX_value : PTRDIFF_MAX = 9223372036854775807.
Proof. reflexivity. Qed.

Lemma SIZE_MAX_value : SIZE_MAX = 18446744073709551615.
Proof. reflexivity. Qed.

Lemma size_t_small (z : Z) : 0 ≤ z ≤ SIZE_MAX → size_t z = z.
Proof. intros H. unfold size_t. apply Z.mod_small. lia. Qed.

(** Doubling a capacity stays exact up to [PTRDIFF_MAX]; a capacity of
    [2 ^ 63] would double to 0.  No allocator grants that much, which is
    what [bounded_allocator] records. *)
Lemma size_t_double (cap : Z) :
  0 ≤ cap ≤ PTRDIFF_MAX → size_t (cap * 2) = 2 * cap.
Proof.
  intros H. rewrite PTRDIFF_MAX_value in H.
  rewrite size_t_small by (rewrite SIZE_MAX_value; lia). lia.
Qed.

Lemma size_t_double_wraps : size_t (2 ^ 63 * 2) = 0.
Proof. reflexivity. Qed.

Lemma uninit_length (n : Z) : 0 ≤ n → Z.of_nat (length (uninit n)) = n.
Proof. intros H. unfold uninit. rewrite length_replicate. lia. Qed.

Lemma uninit_add (a b : Z) :
  0 ≤ a → 0 ≤ b → uninit a ++ uninit b = uninit (a + b).
Proof.
  intros Ha Hb. unfold uninit.
  rewrite Z2Nat.inj_add by lia. symmetry. apply replicate_add.
Qed.

Lemma uninit_succ (n : Z) : 0 < n → uninit n = None :: uninit (n - 1).
Proof.
  intros H. unfold uninit.
  replace (Z.to_nat n) with (S (Z.to_nat (n - 1))) by lia. reflexivity.
Qed.

Lemma cells_length (w : list byte) (cap : Z) :
  Z.of_nat (length w) ≤ cap →
  Z.of_nat (length ((Some <$> w) ++ uninit (cap - Z.of_nat (length w)))) = cap.
Proof.
  intros H. rewrite length_app, length_fmap, Nat2Z.inj_add, uninit_length; lia.
Qed.

(** Writing at index [length w] of a block that holds [w] extends [w]. *)
Lemma cells_write (w : list byte) (b : byte) (cap : Z) :
  Z.of_nat (length w) < cap →
  <[Z.to_nat (Z.of_nat (length w)) := Some b]>
    ((Some <$> w) ++ uninit (cap - Z.of_nat (length w)))
  = (Some <$> (w ++ [b])) ++ uninit (cap - Z.of_nat (length (w ++ [b]))).
Proof.
  intros H. rewrite Nat2Z.id.
  rewrite (uninit_succ (cap - Z.of_nat (length w))) by lia.
  replace (length w) with (length (Some <$> w) + 0)%nat at 1
    by (rewrite length_fmap; lia).
  rewrite insert_app_r. simpl.
  rewrite fmap_app, <- app_assoc. simpl.
  rewrite length_app. simpl.
  do 3 f_equal. lia.
Qed.

(** Growing a block keeps what was written. *)
Lemma cells_resize (w : list byte) (old new : Z) :
  Z.of_nat (length w) ≤ old → old ≤ new →
  resize new ((Some <$> w) ++ uninit (old - Z.of_nat (length w)))
  = (Some <$> w) ++ uninit (new - Z.of_nat (length w)).
Proof.
  intros Hw Hn. unfold resize.
  pose proof (cells_length w old Hw) as Hlen.
  rewrite take_ge by lia.
  rewrite Hlen, <- app_assoc, uninit_add by lia.
  do 2 f_equal. lia.
Qed.

Lemma fresh_addr_not_null (bl : gmap N block) : fresh_addr bl ≠ NULL.
Proof.
  unfold fresh_addr. intros H.
  pose proof (is_fresh ({[NULL]} ∪ dom bl : gset N)) as Hf.
  rewrite H in Hf. set_solver.
Qed.

Lemma fresh_addr_unused (bl : gmap N block) : bl !! fresh_addr bl = None.
Proof.
  unfold fresh_addr.
  pose proof (is_fresh ({[NULL]} ∪ dom bl : gset N)) as Hf.
  apply not_elem_of_dom. set_solver.
Qed.

(** ** The heap operations on the one block of [main] *)

Lemma malloc_first (al : nat → Z → bool) (n : Z) (h : heap) :
  h_blocks h = ∅ →
  ∃ p h', malloc al n h = (p, h') ∧
    ((al (h_requests h) n = false ∧ p = NULL ∧ h_blocks h' = ∅)
     ∨ (al (h_requests h) n = true ∧ holds h' p n [])).
Proof.
  destruct h as [bl k log]. simpl. intros ->. unfold malloc.
  destruct (al k n) eqn:Hal; eexists _, _; (split; [reflexivity|]).
  - right. split; [done|]. split; [apply fresh_addr_not_null|].
    simpl. rewrite insert_empty. do 3 f_equal. lia.
  - left. done.
Qed.

Lemma realloc_holds (al : nat → Z → bool) (p : N) (old n : Z)
    (w : list byte) (h : heap) :
  holds h p old w → Z.of_nat (length w) ≤ old → old ≤ n →
  ∃ q h', realloc al p n h = Some (q, h') ∧
    ((al (h_requests h) n = false ∧ q = NULL ∧ holds h' p old w)
     ∨ (al (h_requests h) n = true ∧ holds h' q n w)).
Proof.
  destruct h as [bl k log]. intros [Hp Hbl] Hw Hn. simpl in *.
  unfold realloc. rewrite decide_False by done.
  rewrite Hbl, lookup_singleton_eq.
  destruct (al k n) eqn:Hal; eexists _, _; (split; [reflexivity|]).
  - right. split; [done|]. split; [apply fresh_addr_not_null|].
    simpl. rewrite delete_singleton_eq, insert_empty.
    by rewrite cells_resize.
  - left. done.
Qed.

Lemma free_holds (p : N) (cap : Z) (w : list byte) (h : heap) :
  holds h p cap w → ∃ h', free p h = Some h' ∧ h_blocks h' = ∅.
Proof.
  destruct h as [bl k log]. intros [Hp Hbl]. simpl in *.
  unfold free. rewrite decide_False by done.
  rewrite Hbl, lookup_singleton_eq.
  eexists. split; [reflexivity|]. simpl. apply delete_singleton_eq.
Qed.

Lemma store_holds (p : N) (cap : Z) (w : list byte) (b : byte) (h : heap) :
  holds h p cap w → Z.of_nat (length w) < cap →
  ∃ h', store p (Z.of_nat (length w)) b h = Some h' ∧ holds h' p cap (w ++ [b])
        ∧ h_requests h' = h_requests h.
Proof.
  destruct h as [bl k log]. intros [Hp Hbl] Hw. simpl in *.
  unfold store. rewrite decide_False by done.
  rewrite Hbl, lookup_singleton_eq.
  rewrite decide_True by (rewrite cells_length; lia).
  eexists. split; [reflexivity|]. split; [|done]. split; [done|]. simpl.
  by rewrite insert_singleton_eq, cells_write.
Qed.

(** A block whose written part ends in a null holds a string: the written
    bytes up to their first null. *)
Lemma cstring_cells_terminated (w : list byte) (rest : list (option byte)) :
  cstring_cells ((Some <$> (w ++ [x00])) ++ rest) = Some (until_null w).
Proof.
  induction w as [|b w IH]; [done|].
  change (cstring_cells (Some b :: ((Some <$> (w ++ [x00])) ++ rest))
          = Some (until_null (b :: w))).
  simpl. destruct (Byte.eqb b x00); [done|]. by rewrite IH.
Qed.

Lemma cstring_holds (p : N) (cap : Z) (w : list byte) (h : heap) :
  holds h p cap (w ++ [x00]) → cstring h p = Some (until_null w).
Proof.
  intros [Hp Hbl]. unfold cstring. rewrite decide_False by done.
  rewrite Hbl, lookup_singleton_eq. simpl. apply cstring_cells_terminated.
Qed.

(** ** Capacities and traces *)

Lemma geometric_initial : geometric 1024.
Proof. exists 0%nat. reflexivity. Qed.

Lemma geometric_double (cap : Z) : geometric cap → geometric (2 * cap).
Proof.
  intros [k ->]. exists (S k).
  rewrite Nat2Z.inj_succ, Z.pow_succ_r by lia. lia.
Qed.

Lemma geometric_ge (cap : Z) : geometric cap → 1024 ≤ cap.
Proof.
  intros [k ->]. assert (0 < 2 ^ Z.of_nat k) by (apply Z.pow_pos_nonneg; lia).
  lia.
Qed.

Lemma quiet_nil : quiet [].
Proof. done. Qed.

Lemma quiet_snoc (tr : list event) (e : event) :
  quiet tr →
  is_refusal e = false → is_parse e = false →
  is_free e = false → is_perror e = false →
  quiet (tr ++ [e]).
Proof.
  intros (H1 & H2 & H3 & H4) E1 E2 E3 E4. unfold quiet.
  rewrite !existsb_app. simpl. rewrite H1, H2, H3, H4, E1, E2, E3, E4. done.
Qed.

Lemma not_null_eqb (p : N) : p ≠ NULL → N.eqb p NULL = false.
Proof. intros H. by apply N.eqb_neq. Qed.

Create HintDb inv.

(** Take apart the conjunctions, disjunctions and existentials at hand. *)
Ltac break_hyps :=
  repeat match goal with
         | H : _ ∧ _ |- _ => destruct H
         | H : ∃ _, _ |- _ => destruct H
         | H : _ ∨ _ |- _ => destruct H
         end.

#[local] Hint Resolve quiet_nil geometric_initial geometric_double : inv.

Section MainInvariant.

Variable al : nat → Z → bool.
Variable parse_to_string : heap → N → option (heap * N).
Variable stdin : list byte.
Hypothesis al_bounded : bounded_allocator al.

Lemma Inv_entry : Inv stdin (main_entry stdin).
Proof. simpl. auto with inv. Qed.

Lemma Inv_step (m m' : machine) :
  Inv stdin m → main_step al parse_to_string m = Running m' → Inv stdin m'.
Proof.
  destruct m as [l cap sz buf ch nb rs h inp tr].
  destruct l; simpl; intros HI Hstep.
  - (* 26 *) inversion Hstep; subst; clear Hstep. simpl.
    destruct HI as (? & ? & ?). split_and!; auto.
    by apply quiet_snoc.
  - (* 27 *) inversion Hstep; subst; clear Hstep. simpl. tauto.
  - (* 28 *) inversion Hstep; subst; clear Hstep. simpl. tauto.
  - (* 29 *) destruct HI as (-> & -> & Hbl & -> & Hq).
    destruct (malloc_first al 1024 h Hbl) as (p & h' & Hm & Hcase).
    rewrite Hm in Hstep. inversion Hstep; subst; clear Hstep. simpl.
    split_and!; auto.
    destruct Hcase as [(_ & -> & Hbl') | (_ & Hh)].
    + left. split_and!; auto. by exists tr.
    + right. split; [done|]. destruct Hh as [Hp _].
      apply quiet_snoc; auto. simpl. by apply not_null_eqb.
  - (* 30 *) destruct HI as (-> & -> & -> & Hcase).
    destruct (decide (buf = NULL)) as [Hnull | Hnn];
      inversion Hstep; subst; clear Hstep; simpl.
    + destruct Hcase as [(_ & Hbl & Htr) | ([Hp _] & _)]; [|done].
      split_and!; auto.
    + destruct Hcase as [(Hp & _) | (Hh & Hq)]; [done|].
      split_and!; auto. all: apply Hh.
  - (* 31 *) inversion Hstep; subst; clear Hstep. simpl.
    destruct HI as (-> & -> & Hbl & tr0 & -> & Hq).
    split_and!; auto. exists tr0, (bytes "Could not allocate buffer with capacity").
    by rewrite <- app_assoc.
  - (* 32 *) discriminate.
  - (* 34 *) inversion Hstep; subst; clear Hstep. simpl.
    destruct HI as (-> & -> & -> & Hh & Hq).
    exists []. split_and!; auto.
    + split_and!; auto with inv; rewrite ?PTRDIFF_MAX_value; lia.
    + by apply quiet_snoc.
  - (* 37 *) destruct HI as (w & Hin & Hsz & Hh & Hc & Hq).
    destruct inp as [|b rest]; cbn [fgetc] in Hstep.
    + rewrite decide_False in Hstep by (by intros []).
      inversion Hstep; subst; clear Hstep; simpl.
      rewrite app_nil_r. split_and!; auto.
    + rewrite decide_True in Hstep by apply int_of_byte_not_EOF.
      inversion Hstep; subst; clear Hstep; simpl.
      exists w, b. split_and!; auto.
  - (* 38 *) destruct HI as (w & b & Hin & Hch & Hsz & Hh & Hc & Hq).
    pose proof Hc as (Hg & Hfit & Hmax).
    rewrite PTRDIFF_MAX_value in Hmax.
    rewrite size_t_small in Hstep by (rewrite SIZE_MAX_value; lia).
    destruct (decide (sz + 1 >= cap));
      inversion Hstep; subst; clear Hstep; simpl;
      exists w, b; split_and!; auto; lia.
  - (* 39 *) destruct HI as (w & b & Hin & Hch & Hsz & Hfull & Hh & Hc & Hq).
    pose proof Hc as (Hg & Hfit & Hmax).
    rewrite PTRDIFF_MAX_value in Hmax.
    rewrite size_t_small in Hstep by (rewrite SIZE_MAX_value; lia).
    inversion Hstep; subst; clear Hstep; simpl.
    exists w, b, (Z.of_nat (length w) + 1). split_and!; auto; lia.
  - (* 40 *)
    destruct HI as (w & b & old & Hin & Hch & Hsz & Hfull & Hcap & Hh & Hc & Hq).
    pose proof Hc as (Hg & Hfit & Hmax).
    destruct (realloc_holds al buf old cap w h Hh) as (q & h' & Hr & Hcase);
      [lia | lia |].
    rewrite Hr in Hstep. inversion Hstep; subst m'; clear Hstep. simpl.
    exists w, b, old. split_and!; auto.
    destruct Hcase as [(_ & -> & Hh') | (Hal & Hh')].
    + left. split_and!; auto. by exists tr.
    + right. split_and!; auto.
      * by apply al_bounded in Hal.
      * destruct Hh' as [Hq' _]. apply quiet_snoc; auto.
        simpl. by apply not_null_eqb.
  - (* 41 *)
    destruct HI as (w & b & old & Hin & Hch & Hsz & Hfull & Hcap & Hg & Hcase).
    destruct (decide (nb = NULL)) as [Hnull | Hnn];
      inversion Hstep; subst m'; clear Hstep; simpl.
    + destruct Hcase as [(_ & Hh & Htr) | ([Hp _] & _)]; [|done].
      exists w, old. split_and!; auto.
    + destruct Hcase as [(Hp & _) | (Hh & Hmax & Hq)]; [done|].
      exists w, b. apply geometric_double in Hg as Hg2.
      apply geometric_ge in Hg.
      split_and!; auto; try lia.
      split_and!; auto; try lia. by rewrite Hcap.
  - (* 42 *) destruct HI as (w & old & Hsz & Hfull & Hcap & Hh & tr0 & -> & Hq).
    destruct (free_holds buf old w h Hh) as (h' & Hf & Hbl).
    rewrite Hf in Hstep. inversion Hstep; subst m'; clear Hstep. simpl.
    split_and!; auto; try lia. exists tr0. by rewrite <- app_assoc.
  - (* 43 *) inversion Hstep; subst m'; clear Hstep. simpl.
    destruct HI as (? & ? & ? & tr0 & -> & Hq).
    split_and!; auto.
    exists tr0, (bytes "Could not reallocate buffer with capacity").
    by rewrite <- app_assoc.
  - (* 44 *) discriminate.
  - (* 46 *) inversion Hstep; subst m'; clear Hstep. simpl. done.
  - (* 48 *) destruct HI as (w & b & Hin & Hch & Hsz & Hroom & Hh & Hc & Hq).
    pose proof Hc as (Hg & Hfit & Hmax).
    rewrite PTRDIFF_MAX_value in Hmax.
    destruct (store_holds buf cap w b h Hh) as (h' & Hs & Hh' & _); [lia|].
    rewrite Hch, char_of_int_of_byte, Hsz, Hs in Hstep.
    rewrite size_t_small in Hstep by (rewrite SIZE_MAX_value; lia).
    inversion Hstep; subst m'; clear Hstep. simpl.
    exists (w ++ [b]). split_and!; auto.
    + by rewrite <- app_assoc.
    + rewrite length_app. simpl. lia.
    + split_and!; auto; lia.
  - (* 51 *) destruct HI as (-> & Hsz & Hh & Hc & Hq).
    pose proof Hc as (Hg & Hfit & Hmax).
    destruct (store_holds buf cap stdin x00 h Hh) as (h' & Hs & Hh' & _); [lia|].
    rewrite Hsz, Hs in Hstep.
    inversion Hstep; subst m'; clear Hstep. simpl.
    split_and!; auto. by rewrite <- Hsz.
  - (* 52 *) destruct HI as (Hsz & Hh & Hc & Hq).
    rewrite (cstring_holds _ _ _ _ Hh) in Hstep.
    inversion Hstep; subst m'; clear Hstep. simpl.
    split_and!; auto. by apply quiet_snoc.
  - (* 54 *) destruct HI as (Hsz & Hh & Hc & Hq).
    destruct (parse_to_string h buf) as [[h' r]|]; [|discriminate].
    inversion Hstep; subst m'; clear Hstep. simpl.
    split_and!; auto. by exists tr.
  - (* 55 *) destruct HI as (Hsz & Hc & tr0 & -> & Hq).
    destruct (cstring h rs) as [s|]; [|discriminate].
    inversion Hstep; subst m'; clear Hstep. simpl.
    split_and!; auto. eexists tr0, _. by rewrite <- app_assoc.
  - (* 56 *) destruct HI as (Hsz & Hc & tr0 & out & -> & Hq).
    destruct (free rs h) as [h'|]; [|discriminate].
    inversion Hstep; subst m'; clear Hstep. simpl.
    split_and!; auto. exists tr0, out. by rewrite <- app_assoc.
  - (* 57 *) discriminate.
Qed.

(** Every state [main] goes through satisfies the invariant of its line. *)
Lemma reachable_Inv (m : machine) :
  reachable al parse_to_string stdin m → Inv stdin m.
Proof.
  induction 1 as [|m m' _ IH Hstep]; [apply Inv_entry|].
  by apply (Inv_step m m').
Qed.

(** *** One turn of the loop, executed *)

Lemma iteration_fits cap sz buf ch nb rs h b rest tr w :
  holds h buf cap w → sz = Z.of_nat (length w) →
  sz + 1 < cap → cap ≤ PTRDIFF_MAX →
  ∃ h', main_run al parse_to_string 3
          (Machine L37 cap sz buf ch nb rs h (b :: rest) tr)
        = Running (Machine L37 cap (sz + 1) buf (int_of_byte b) nb rs h' rest tr)
        ∧ holds h' buf cap (w ++ [b]).
Proof.
  intros Hh -> Hroom Hmax. rewrite PTRDIFF_MAX_value in Hmax.
  destruct (store_holds buf cap w b h Hh) as (h' & Hs & Hh' & _); [lia|].
  exists h'. split; [|done].
  cbn [main_run main_step fgetc].
  rewrite decide_True by apply int_of_byte_not_EOF.
  cbn [main_run main_step].
  rewrite size_t_small by (rewrite SIZE_MAX_value; lia).
  rewrite decide_False by lia.
  cbn [main_run main_step].
  rewrite char_of_int_of_byte, Hs. cbn [main_run main_step].
  by rewrite size_t_small by (rewrite SIZE_MAX_value; lia).
Qed.

Lemma iteration_grows cap sz buf ch nb rs h b rest tr w :
  holds h buf cap w → sz = Z.of_nat (length w) →
  sz + 1 = cap → cap ≤ PTRDIFF_MAX →
  al (h_requests h) (2 * cap) = true →
  ∃ q h', main_run al parse_to_string 7
          (Machine L37 cap sz buf ch nb rs h (b :: rest) tr)
        = Running (Machine L37 (2 * cap) (sz + 1) q (int_of_byte b) q rs h' rest
                     (tr ++ [EvRealloc buf (2 * cap) q]))
        ∧ holds h' q (2 * cap) (w ++ [b]).
Proof.
  intros Hh -> Hfull Hmax Hal. rewrite PTRDIFF_MAX_value in Hmax.
  destruct (realloc_holds al buf cap (2 * cap) w h Hh) as (q & h1 & Hr & Hcase);
    [lia | lia |].
  destruct Hcase as [(Hno & _) | (_ & Hh1)]; [congruence|].
  destruct (store_holds q (2 * cap) w b h1 Hh1) as (h' & Hs & Hh' & _); [lia|].
  exists q, h'. split; [|done].
  cbn [main_run main_step fgetc].
  rewrite decide_True by apply int_of_byte_not_EOF.
  cbn [main_run main_step].
  rewrite size_t_small by (rewrite SIZE_MAX_value; lia).
  rewrite decide_True by lia.
  cbn [main_run main_step].
  rewrite size_t_small by (rewrite SIZE_MAX_value; lia).
  rewrite (Z.mul_comm cap 2), Hr.
  cbn [main_run main_step].
  rewrite decide_False by apply Hh1.
  cbn [main_run main_step].
  rewrite char_of_int_of_byte, Hs. cbn [main_run main_step].
  rewrite size_t_small by (rewrite SIZE_MAX_value; lia). done.
Qed.

Lemma iteration_fails cap sz buf ch nb rs h b rest tr w :
  holds h buf cap w → sz = Z.of_nat (length w) →
  sz + 1 = cap → cap ≤ PTRDIFF_MAX →
  al (h_requests h) (2 * cap) = false →
  ∃ h', main_run al parse_to_string 8
          (Machine L37 cap sz buf ch nb rs h (b :: rest) tr)
        = Exited EXIT_FAILURE
            (Machine L44 (2 * cap) sz buf (int_of_byte b) NULL rs h' rest
               (tr ++ [EvRealloc buf (2 * cap) NULL; EvFree buf;
                       EvPerror (bytes "Could not reallocate buffer with capacity")]))
        ∧ h_blocks h' = ∅.
Proof.
  intros Hh -> Hfull Hmax Hal. rewrite PTRDIFF_MAX_value in Hmax.
  destruct (realloc_holds al buf cap (2 * cap) w h Hh) as (q & h1 & Hr & Hcase);
    [lia | lia |].
  destruct Hcase as [(_ & -> & Hh1) | (Hyes & _)]; [|congruence].
  destruct (free_holds buf cap w h1 Hh1) as (h' & Hf & Hbl).
  exists h'. split; [|done].
  cbn [main_run main_step fgetc].
  rewrite decide_True by apply int_of_byte_not_EOF.
  cbn [main_run main_step].
  rewrite size_t_small by (rewrite SIZE_MAX_value; lia).
  rewrite decide_True by lia.
  cbn [main_run main_step].
  rewrite size_t_small by (rewrite SIZE_MAX_value; lia).
  rewrite (Z.mul_comm cap 2), Hr.
  cbn [main_run main_step].
  rewrite decide_True by done.
  cbn [main_run main_step].
  rewrite Hf. cbn [main_run main_step].
  by rewrite <- !app_assoc.
Qed.

(** *** Runs *)

Lemma main_run_add (a b : nat) (m : machine) :
  main_run al parse_to_string (a + b) m =
  match main_run al parse_to_string a m with
  | Running m' => main_run al parse_to_string b m'
  | st => st
  end.
Proof.
  revert m. induction a as [|a IH]; intros m; [done|].
  simpl. destruct (main_step al parse_to_string m); auto.
Qed.

Lemma main_run_reachable (n : nat) (m m' : machine) :
  reachable al parse_to_string stdin m →
  main_run al parse_to_string n m = Running m' →
  reachable al parse_to_string stdin m'.
Proof.
  revert m. induction n as [|n IH]; intros m Hm Hrun; simpl in Hrun.
  - by inversion Hrun; subst.
  - destruct (main_step al parse_to_string m) as [m1| |] eqn:Hstep;
      try discriminate.
    apply (IH m1); [|done]. by apply (reach_step _ _ _ m m1).
Qed.

(** A run ends where the last state it went through executes an exit. *)
Lemma main_run_exit (n : nat) (m m' : machine) (code : Z) :
  reachable al parse_to_string stdin m →
  main_run al parse_to_string n m = Exited code m' →
  reachable al parse_to_string stdin m' ∧
  main_step al parse_to_string m' = Exited code m'.
Proof.
  revert m. induction n as [|n IH]; intros m Hm Hrun; simpl in Hrun;
    [discriminate|].
  destruct (main_step al parse_to_string m) as [m1| |] eqn:Hstep;
    try discriminate.
  - apply (IH m1); [|done]. by apply (reach_step _ _ _ m m1).
  - inversion Hrun; subst.
    assert (m = m') as <-; [|done].
    destruct m as [l ? ? ? ? ? ? ? ? ?]; destruct l; simpl in Hstep;
      repeat case_match; congruence.
Qed.

(** [main] exits at lines 32 and 44 with [EXIT_FAILURE] and at line 57 with
    [EXIT_SUCCESS], and nowhere else. *)
Lemma exit_lines (m m' : machine) (code : Z) :
  main_step al parse_to_string m = Exited code m' →
  ((m_pc m = L32 ∨ m_pc m = L44) ∧ code = EXIT_FAILURE)
  ∨ (m_pc m = L57 ∧ code = EXIT_SUCCESS).
Proof.
  destruct m as [l ? ? ? ? ? ? ? ? ?]; destruct l; simpl;
    repeat case_match; intros; simplify_eq; auto.
Qed.

(** *** From the entry of [main] to the loop *)

Lemma startup_refused :
  al 0%nat 1024 = false →
  ∃ m, main_run al parse_to_string 7 (main_entry stdin) = Exited EXIT_FAILURE m.
Proof.
  intros Hal. cbn [main_run main_step main_entry malloc empty_heap].
  rewrite Hal. cbn [main_run main_step].
  rewrite decide_True by done. cbn [main_run main_step]. eauto.
Qed.

Lemma startup_granted :
  al 0%nat 1024 = true →
  ∃ p h tr,
    main_run al parse_to_string 6 (main_entry stdin)
    = Running (Machine L37 1024 0 p 0 NULL NULL h stdin tr)
    ∧ holds h p 1024 [].
Proof.
  intros Hal.
  destruct (malloc_first al 1024 empty_heap eq_refl) as (p & h & Hm & Hcase).
  destruct Hcase as [(Hno & _) | (_ & Hh)]; [simpl in Hno; congruence|].
  exists p, h. eexists. split; [|done].
  cbn [main_run main_step main_entry]. rewrite Hm.
  cbn [main_run main_step].
  rewrite decide_False by apply Hh. by cbn [main_run main_step].
Qed.

(** *** The loop runs to its end or to a failed reallocation *)

Lemma loop_outcome (inp : list byte) :
  ∀ cap sz buf ch nb rs h tr w,
    holds h buf cap w → sz = Z.of_nat (length w) → sound_capacity cap sz →
    ∃ fuel,
      (∃ m, main_run al parse_to_string fuel
              (Machine L37 cap sz buf ch nb rs h inp tr) = Running m
            ∧ m_pc m = L51)
      ∨ (∃ m k n, main_run al parse_to_string fuel
                    (Machine L37 cap sz buf ch nb rs h inp tr)
                  = Exited EXIT_FAILURE m
                  ∧ al k n = false
                  ∧ n ≤ 2 * (sz + Z.of_nat (length inp))).
Proof.
  induction inp as [|b rest IH]; intros cap sz buf ch nb rs h tr w Hh Hsz Hc.
  - exists 1%nat. left. eexists. split; [reflexivity|done].
  - destruct Hc as (Hg & Hfit & Hmax).
    assert (Hlen : Z.of_nat (length (w ++ [b])) = sz + 1)
      by (rewrite length_app; simpl; lia).
    destruct (decide (sz + 1 < cap)) as [Hroom | Hfull].
    + destruct (iteration_fits cap sz buf ch nb rs h b rest tr w)
        as (h' & Hrun & Hh'); auto.
      destruct (IH cap (sz + 1) buf (int_of_byte b) nb rs h' tr (w ++ [b]))
        as (fuel & Hout); auto.
      { split_and!; auto; lia. }
      exists (3 + fuel)%nat. rewrite main_run_add, Hrun.
      destruct Hout as [Hok | (m & k & n & Hex & Hal & Hn)]; [by left|].
      right. exists m, k, n. split_and!; auto.
      simpl length. lia.
    + assert (Heq : sz + 1 = cap) by lia.
      destruct (al (h_requests h) (2 * cap)) eqn:Hal.
      * pose proof (al_bounded _ _ Hal) as Hmax2.
        destruct (iteration_grows cap sz buf ch nb rs h b rest tr w)
          as (q & h' & Hrun & Hh'); auto.
        destruct (IH (2 * cap) (sz + 1) q (int_of_byte b) q rs h'
                     (tr ++ [EvRealloc buf (2 * cap) q]) (w ++ [b]))
          as (fuel & Hout); auto.
        { apply geometric_ge in Hg as Hge.
          split_and!; auto with inv; lia. }
        exists (7 + fuel)%nat. rewrite main_run_add, Hrun.
        destruct Hout as [Hok | (m & k & n & Hex & Hal' & Hn)]; [by left|].
        right. exists m, k, n. split_and!; auto.
        simpl length. lia.
      * destruct (iteration_fails cap sz buf ch nb rs h b rest tr w)
          as (h' & Hrun & _); auto.
        exists 8%nat. right. eexists _, _, _. split_and!; eauto.
        simpl length. lia.
Qed.

Lemma finalization_step (m : machine) :
  Inv stdin m → m_pc m = L51 →
  ∃ m', main_step al parse_to_string m = Running m' ∧ m_pc m' = L52.
Proof.
  destruct m as [l cap sz buf ch nb rs h inp tr]. simpl. intros HI ->.
  destruct HI as (-> & Hsz & Hh & (Hg & Hfit & Hmax) & Hq).
  destruct (store_holds buf cap stdin x00 h Hh) as (h' & Hs & _); [lia|].
  simpl. rewrite Hsz, Hs. eauto.
Qed.

Lemma accumulation_outcome :
  ∃ fuel,
    (∃ m, main al parse_to_string stdin fuel = Running m
          ∧ m_pc m = L52)
    ∨ (∃ m k n, main al parse_to_string stdin fuel
                = Exited EXIT_FAILURE m
                ∧ al k n = false
                ∧ n ≤ Z.max 1024 (2 * Z.of_nat (length stdin))).
Proof.
  unfold main.
  destruct (al 0%nat 1024) eqn:Hal.
  - destruct (startup_granted Hal) as (p & h & tr & Hrun & Hh).
    destruct (loop_outcome stdin 1024 0 p 0 NULL NULL h tr [] Hh eq_refl)
      as (fuel & Hout).
    { split_and!; auto with inv; rewrite ?PTRDIFF_MAX_value; lia. }
    destruct Hout as [(m & Hm & Hpc) | (m & k & n & Hm & Hk & Hn)].
    + assert (Hreach : reachable al parse_to_string stdin m).
      { apply (main_run_reachable (6 + fuel) (main_entry stdin));
          [constructor|]. by rewrite main_run_add, Hrun. }
      destruct (finalization_step m (reachable_Inv m Hreach) Hpc)
        as (m' & Hstep & Hpc').
      exists (6 + fuel + 1)%nat. left. exists m'. split; [|done].
      rewrite main_run_add, main_run_add, Hrun, Hm. simpl. by rewrite Hstep.
    + exists (6 + fuel)%nat. right. exists m, k, n.
      rewrite main_run_add, Hrun. split_and!; auto. lia.
  - destruct (startup_refused Hal) as (m & Hm).
    exists 7%nat. right. exists m, 0%nat, 1024. split_and!; auto. lia.
Qed.

(** ** The accumulated buffer *)

(** C1.  Whatever the length L of standard input, when the loop and the
    write of line 51 are done (every state at line 52) [size] is L and the
    buffer is one block whose first L cells are the bytes read, whose next
    cell is the terminating null and whose other cells were never written:
    L + 1 cells written.  Line 52 is reached unless an allocation is
    refused, in which case [main] exits with [EXIT_FAILURE]; it is reached
    whenever the allocator grants the requests of at most [max 1024 (2 L)]
    bytes. *)
Theorem accumulated_buffer :
  (∀ m, reachable al parse_to_string stdin m → m_pc m = L52 →
        size m = Z.of_nat (length stdin)
        ∧ holds (m_heap m) (buffer m) (capacity m) (stdin ++ [x00])
        ∧ Z.of_nat (length (stdin ++ [x00])) = Z.of_nat (length stdin) + 1)
  ∧ (∃ fuel,
       (∃ m, main al parse_to_string stdin fuel = Running m
             ∧ m_pc m = L52)
       ∨ (∃ m k n, main al parse_to_string stdin fuel
                   = Exited EXIT_FAILURE m ∧ al k n = false))
  ∧ ((∀ k n, n ≤ Z.max 1024 (2 * Z.of_nat (length stdin)) → al k n = true) →
     ∃ fuel m, main al parse_to_string stdin fuel = Running m
               ∧ m_pc m = L52).
Proof.
  unfold main.
  split_and!.
  - intros m Hreach Hpc. apply reachable_Inv in Hreach.
    destruct m as [l cap sz buf ch nb rs h inp tr]. simpl in *. subst l.
    destruct Hreach as (Hsz & Hh & _). split_and!; auto.
    rewrite length_app. simpl. lia.
  - destruct accumulation_outcome as (fuel & [Hok | (m & k & n & Hm & Hk & _)]).
    + exists fuel. by left.
    + exists fuel. right. by exists m, k, n.
  - intros Hgrant.
    destruct accumulation_outcome as (fuel & [(m & Hm) | (m & k & n & _ & Hk & Hn)]).
    + by exists fuel, m.
    + rewrite (Hgrant k n Hn) in Hk. discriminate.
Qed.

(** C2.  The buffer is created with capacity 1024.  At the head of the loop
    with a byte [b] to read, if [size + 1 < capacity] the turn leaves
    [capacity] as it is; if [size + 1 >= capacity] it asks for twice the
    capacity and, when that is granted, continues with [capacity] doubled;
    either way the block then holds what it held, followed by [b].  After
    accumulation (line 52, reached on every input unless an allocation is
    refused) the capacity is 1024 times a power of two and is at least
    [size + 1]. *)
Theorem capacity_growth :
  (∀ m, reachable al parse_to_string stdin m → m_pc m = L34 →
        capacity m = 1024 ∧ holds (m_heap m) (buffer m) 1024 [])
  ∧ (∀ m b rest,
       reachable al parse_to_string stdin m →
       m_pc m = L37 → m_stdin m = b :: rest →
       ∃ w, holds (m_heap m) (buffer m) (capacity m) w ∧
         ((size m + 1 < capacity m ∧
           ∃ m', main_run al parse_to_string 3 m = Running m'
                 ∧ m_pc m' = L37 ∧ m_stdin m' = rest
                 ∧ capacity m' = capacity m
                 ∧ holds (m_heap m') (buffer m') (capacity m') (w ++ [b]))
          ∨ (size m + 1 >= capacity m ∧
             al (h_requests (m_heap m)) (2 * capacity m) = true ∧
             ∃ m', main_run al parse_to_string 7 m = Running m'
                   ∧ m_pc m' = L37 ∧ m_stdin m' = rest
                   ∧ capacity m' = 2 * capacity m
                   ∧ holds (m_heap m') (buffer m') (capacity m') (w ++ [b]))
          ∨ (size m + 1 >= capacity m ∧
             al (h_requests (m_heap m)) (2 * capacity m) = false ∧
             ∃ m', main_run al parse_to_string 8 m = Exited EXIT_FAILURE m')))
  ∧ (∀ m, reachable al parse_to_string stdin m → m_pc m = L52 →
          geometric (capacity m)
          ∧ size m + 1 ≤ capacity m
          ∧ Z.of_nat (length (stdin ++ [x00])) ≤ capacity m)
  ∧ (∃ fuel,
       (∃ m, main al parse_to_string stdin fuel = Running m ∧ m_pc m = L52)
       ∨ (∃ m k n, main al parse_to_string stdin fuel = Exited EXIT_FAILURE m
                   ∧ al k n = false)).
Proof.
  split_and!.
  - intros m Hreach Hpc. apply reachable_Inv in Hreach.
    destruct m as [l cap sz buf ch nb rs h inp tr]. simpl in *. subst l.
    destruct Hreach as (-> & _ & _ & Hh & _). done.
  - intros m b rest Hreach Hpc Hin. apply reachable_Inv in Hreach.
    destruct m as [l cap sz buf ch nb rs h inp tr]. simpl in *. subst l inp.
    destruct Hreach as (w & _ & Hsz & Hh & (Hg & Hfit & Hmax) & _).
    exists w. split; [done|].
    destruct (decide (sz + 1 < cap)) as [Hroom | Hfull].
    + left. split; [done|].
      destruct (iteration_fits cap sz buf ch nb rs h b rest tr w)
        as (h' & Hrun & Hh'); auto.
      eexists. split; [apply Hrun|]. by simpl.
    + right. assert (Heq : sz + 1 = cap) by lia.
      destruct (al (h_requests h) (2 * cap)) eqn:Hal.
      * left. split_and!; [lia|done|].
        destruct (iteration_grows cap sz buf ch nb rs h b rest tr w)
          as (q & h' & Hrun & Hh'); auto.
        eexists. split; [apply Hrun|]. by simpl.
      * right. split_and!; [lia|done|].
        destruct (iteration_fails cap sz buf ch nb rs h b rest tr w)
          as (h' & Hrun & _); auto.
        eexists. apply Hrun.
  - intros m Hreach Hpc. apply reachable_Inv in Hreach.
    destruct m as [l cap sz buf ch nb rs h inp tr]. simpl in *. subst l.
    destruct Hreach as (Hsz & _ & (Hg & Hfit & _) & _).
    split_and!; auto. rewrite length_app. simpl. lia.
  - destruct accumulation_outcome as (fuel & [Hok | (m & k & n & Hm & Hk & _)]).
    + exists fuel. by left.
    + exists fuel. right. by exists m, k, n.
Qed.

(** ** Room for the terminator *)

Lemma Inv_room (m : machine) :
  Inv stdin m → initialised (m_pc m) = true →
  0 ≤ size m ∧ size m + 1 ≤ capacity m.
Proof.
  destruct m as [l cap sz buf ch nb rs h inp tr].
  destruct l; simpl; intros HI Hinit; try discriminate;
    unfold sound_capacity in *; break_hyps; lia.
Qed.

Lemma Inv_size_step (m m' : machine) :
  Inv stdin m → initialised (m_pc m) = true →
  main_step al parse_to_string m = Running m' → size m ≤ size m'.
Proof.
  destruct m as [l cap sz buf ch nb rs h inp tr].
  destruct l; simpl; intros HI Hinit Hstep; try discriminate;
    try (repeat case_match; simplify_eq; simpl; lia).
  (* line 48 *)
  destruct HI as (w & b & _ & _ & Hsz & Hroom & _ & (_ & _ & Hmax) & _).
  rewrite PTRDIFF_MAX_value in Hmax.
  rewrite size_t_small in Hstep by (rewrite SIZE_MAX_value; lia).
  case_match; simplify_eq. simpl. lia.
Qed.

(** C4.  At every state [main] goes through once [capacity] and [size] are
    both initialised (line 29 on, so at every point of the loop),
    [capacity >= size + 1]; and no step from such a state makes [size]
    smaller. *)
Theorem capacity_invariant :
  (∀ m, reachable al parse_to_string stdin m →
        initialised (m_pc m) = true → size m + 1 ≤ capacity m)
  ∧ (∀ m m', reachable al parse_to_string stdin m →
             initialised (m_pc m) = true →
             main_step al parse_to_string m = Running m' →
             size m ≤ size m').
Proof.
  split.
  - intros m Hreach Hinit. by apply Inv_room; [apply reachable_Inv|].
  - intros m m' Hreach Hinit Hstep.
    by apply (Inv_size_step m m'); [apply reachable_Inv| |].
Qed.

(** ** The failure paths *)

Lemma malloc_failure_path (m : machine) :
  Inv stdin m → m_pc m = L30 → buffer m = NULL →
  ∃ m', main_run al parse_to_string 3 m = Exited EXIT_FAILURE m'
        ∧ m_trace m' = m_trace m
            ++ [EvPerror (bytes "Could not allocate buffer with capacity")]
        ∧ existsb is_parse (m_trace m') = false.
Proof.
  destruct m as [l cap sz buf ch nb rs h inp tr]. simpl. intros HI -> ->.
  destruct HI as (_ & _ & _ & [(_ & _ & tr0 & -> & Hq) | ([Hp _] & _)]);
    [|done].
  eexists. split; [reflexivity|]. simpl. split; [done|].
  destruct Hq as (_ & Hparse & _).
  rewrite !existsb_app, Hparse. done.
Qed.

Lemma realloc_failure_path (m : machine) :
  Inv stdin m → m_pc m = L41 → newbuf m = NULL →
  ∃ old w m',
    holds (m_heap m) (buffer m) old w
    ∧ main_run al parse_to_string 4 m = Exited EXIT_FAILURE m'
    ∧ m_trace m' = m_trace m
        ++ [EvFree (buffer m);
            EvPerror (bytes "Could not reallocate buffer with capacity")]
    ∧ h_blocks (m_heap m') = ∅
    ∧ existsb is_parse (m_trace m') = false.
Proof.
  destruct m as [l cap sz buf ch nb rs h inp tr]. simpl. intros HI -> ->.
  destruct HI as (w & b & old & _ & _ & _ & _ & _ & _ & Hcase).
  destruct Hcase as [(_ & Hh & tr0 & -> & Hq) | ([Hp _] & _)]; [|done].
  destruct (free_holds buf old w h Hh) as (h' & Hf & Hbl).
  exists old, w. eexists. split; [done|].
  cbn [main_run main_step]. rewrite decide_True by done.
  cbn [main_run main_step]. rewrite Hf. cbn [main_run main_step].
  split; [reflexivity|]. simpl. split; [by rewrite <- !app_assoc|].
  split; [done|]. destruct Hq as (_ & Hparse & _).
  rewrite !existsb_app, Hparse. done.
Qed.

(** C5.  When [malloc] at line 29 or [realloc] at line 40 returns null,
    [main] writes its [perror] diagnostic and exits with [EXIT_FAILURE],
    which is not 0, and no call of the parser is in its trace.  Every run
    that exits does so either this way, after a refused allocation, or at
    line 57 with [EXIT_SUCCESS = 0], no allocation refused and the parser
    called. *)
Theorem allocation_failure_exit :
  (∀ m, reachable al parse_to_string stdin m →
        m_pc m = L30 → buffer m = NULL →
        ∃ m', main_run al parse_to_string 3 m = Exited EXIT_FAILURE m'
              ∧ m_trace m' = m_trace m
                  ++ [EvPerror (bytes "Could not allocate buffer with capacity")]
              ∧ existsb is_parse (m_trace m') = false)
  ∧ (∀ m, reachable al parse_to_string stdin m →
          m_pc m = L41 → newbuf m = NULL →
          ∃ m', main_run al parse_to_string 4 m = Exited EXIT_FAILURE m'
                ∧ m_trace m' = m_trace m
                    ++ [EvFree (buffer m);
                        EvPerror (bytes "Could not reallocate buffer with capacity")]
                ∧ existsb is_parse (m_trace m') = false)
  ∧ EXIT_FAILURE ≠ 0
  ∧ (∀ fuel code m,
       main al parse_to_string stdin fuel = Exited code m →
       (code = EXIT_FAILURE
        ∧ existsb is_refusal (m_trace m) = true
        ∧ existsb is_perror (m_trace m) = true
        ∧ existsb is_parse (m_trace m) = false)
       ∨ (code = 0 ∧ m_pc m = L57
          ∧ existsb is_refusal (m_trace m) = false
          ∧ existsb is_parse (m_trace m) = true)).
Proof.
  unfold main.
  split_and!.
  - intros m Hreach. apply malloc_failure_path. by apply reachable_Inv.
  - intros m Hreach Hpc Hnull.
    destruct (realloc_failure_path m (reachable_Inv m Hreach) Hpc Hnull)
      as (old & w & m' & _ & Hrun & Htr & _ & Hparse).
    by exists m'.
  - done.
  - intros fuel code m Hrun.
    apply main_run_exit in Hrun as [Hreach Hstep]; [|constructor].
    apply reachable_Inv in Hreach.
    apply exit_lines in Hstep.
    destruct m as [l cap sz buf ch nb rs h inp tr]. simpl in *.
    destruct Hstep as [[[-> | ->] ->] | [-> ->]]; simpl in Hreach.
    + left. destruct Hreach as (_ & _ & _ & tr0 & msg & -> & Hq).
      destruct Hq as (_ & Hparse & _).
      rewrite !existsb_app, Hparse. simpl.
      split_and!; auto; apply orb_true_r.
    + left. destruct Hreach as (_ & _ & _ & tr0 & msg & -> & Hq).
      destruct Hq as (_ & Hparse & _).
      rewrite !existsb_app, Hparse. simpl.
      split_and!; auto; apply orb_true_r.
    + right. destruct Hreach as (_ & _ & tr0 & out & -> & Hq).
      destruct Hq as (Href & _).
      rewrite !existsb_app, Href. simpl.
      split_and!; auto; apply orb_true_r.
Qed.

(** C10.  When [realloc] returns null (line 41 with [newbuf] null) the
    buffer is still a live block; the next steps release it, then write the
    diagnostic, then exit with [EXIT_FAILURE], and at exit the heap has no
    block left. *)
Theorem realloc_failure_frees_buffer :
  ∀ m, reachable al parse_to_string stdin m →
       m_pc m = L41 → newbuf m = NULL →
       (∃ old w, holds (m_heap m) (buffer m) old w)
       ∧ ∃ m', main_run al parse_to_string 4 m = Exited EXIT_FAILURE m'
               ∧ m_trace m' = m_trace m
                   ++ [EvFree (buffer m);
                       EvPerror (bytes "Could not reallocate buffer with capacity")]
               ∧ h_blocks (m_heap m') = ∅.
Proof.
  intros m Hreach Hpc Hnull.
  destruct (realloc_failure_path m (reachable_Inv m Hreach) Hpc Hnull)
    as (old & w & m' & Hh & Hrun & Htr & Hbl & _).
  split; [by exists old, w|]. by exists m'.
Qed.

(** ** The success path *)

Lemma filter_none {A} (f : A → bool) (l : list A) :
  existsb f l = false → List.filter f l = [].
Proof.
  induction l as [|x l IH]; [done|]. simpl.
  destruct (f x); [done|]. auto.
Qed.

(** On every run that exits with [EXIT_SUCCESS], whatever the input, the
    only release [main] made is [free(res)] at line 56. *)
Lemma success_exit_releases_result_only (fuel : nat) (m : machine) :
  main al parse_to_string stdin fuel = Exited EXIT_SUCCESS m →
  List.filter is_free (m_trace m) = [EvFree (res m)].
Proof.
  unfold main.
  intros Hrun.
  apply main_run_exit in Hrun as [Hreach Hstep]; [|constructor].
  apply reachable_Inv in Hreach. apply exit_lines in Hstep.
  destruct m as [l cap sz buf ch nb rs h inp tr]. simpl in *.
  destruct Hstep as [[_ ?] | [-> _]]; [done|]. simpl in Hreach.
  destruct Hreach as (_ & _ & tr0 & out & -> & (_ & _ & Hfree & _)).
  rewrite List.filter_app, (filter_none _ _ Hfree). done.
Qed.

End MainInvariant.

(** ** Consuming the parser's result *)

Lemma cstring_live (h : heap) (p : N) (s : list byte) :
  cstring h p = Some s → p ≠ NULL ∧ is_Some (h_blocks h !! p).
Proof.
  unfold cstring. destruct (decide (p = NULL)); [done|].
  destruct (h_blocks h !! p); [eauto|done].
Qed.

Lemma free_usable (h : heap) (r : N) :
  usable h r →
  ∃ h', free r h = Some h'
        ∧ h_blocks h' = delete r (h_blocks h)
        ∧ h_log h' = h_log h ++ [HRelease r].
Proof.
  intros [[s Hs] [cells Hbl]]. apply cstring_live in Hs as [Hr _].
  destruct h as [bl k log]. simpl in *. unfold free.
  rewrite decide_False by done. rewrite Hbl. eauto.
Qed.

Lemma free_defined (h h' : heap) (r : N) :
  free r h = Some h' →
  r = NULL ∨ ∃ cells, h_blocks h !! r = Some (Block Malloced cells).
Proof.
  destruct h as [bl k log]. unfold free.
  destruct (decide (r = NULL)); [by left|]. simpl.
  destruct (bl !! r) as [[[] cells]|]; [|done..]. eauto.
Qed.

(** Copying the result into a string value, when the runtime has room,
    leaves the result usable and every block where it was. *)
Lemma caml_copy_string_usable (rt : Z → bool) (h : heap) (r : N)
    (s : list byte) :
  usable h r → cstring h r = Some s → has_room rt (length s) = true →
  ∃ h2 v, caml_copy_string rt r h = Copied h2 v
          ∧ v ≠ r ∧ v ≠ NULL
          ∧ h_blocks h !! v = None
          ∧ h_blocks h2
            = <[v := Block Managed (Some <$> (s ++ [x00]))]> (h_blocks h)
          ∧ h_log h2 = h_log h
          ∧ usable h2 r.
Proof.
  intros [_ [cells Hbl]] Hs Hroom.
  pose proof (cstring_live _ _ _ Hs) as [Hr _].
  destruct h as [bl k log]. simpl in *.
  unfold caml_copy_string, caml_alloc_string. rewrite Hs, Hroom. simpl.
  pose proof (fresh_addr_unused bl) as Hfresh.
  assert (Hne : fresh_addr bl ≠ r) by (intros E; rewrite E in Hfresh; congruence).
  eexists _, _. split; [reflexivity|].
  split_and!; auto using fresh_addr_not_null.
  split.
  - exists s. unfold cstring in *. simpl in *.
    destruct (decide (r = NULL)); [done|]. by rewrite lookup_insert_ne.
  - exists cells. simpl. by rewrite lookup_insert_ne.
Qed.

(** When the runtime has no room the copy raises, whatever the block. *)
Lemma caml_copy_string_raises (rt : Z → bool) (h : heap) (r : N)
    (s : list byte) :
  cstring h r = Some s → has_room rt (length s) = false →
  caml_copy_string rt r h = CopyOutOfMemory.
Proof.
  intros Hs Hroom. unfold caml_copy_string, caml_alloc_string.
  by rewrite Hs, Hroom.
Qed.

(** How the binding returns, given what the parser returned. *)
Lemma shim_returns (rt : Z → bool)
    (parse_to_string : heap → N → option (heap * N))
    (h h1 : heap) (v result : N) (s : list byte) :
  parse_to_string h (String_val v) = Some (h1, result) →
  usable h1 result →
  cstring h1 result = Some s → has_room rt (length s) = true →
  ∃ v_res h2 h3,
    ocaml_parse_to_string rt parse_to_string v h
    = Returns v_res h3
        [EvParse (String_val v) result; EvCopyString result v_res; EvFree result]
    ∧ v_res ≠ result
    ∧ h_blocks h1 !! v_res = None
    ∧ h_blocks h2
      = <[v_res := Block Managed (Some <$> (s ++ [x00]))]> (h_blocks h1)
    ∧ h_blocks h3 = delete result (h_blocks h2)
    ∧ h_log h3 = h_log h1 ++ [HRelease result].
Proof.
  intros Hparse Hus Hs Hroom.
  destruct (caml_copy_string_usable rt h1 result s Hus Hs Hroom)
    as (h2 & v_res & Hcopy & Hne & _ & Hfresh & Hbl2 & Hlog2 & Hus2).
  destruct (free_usable h2 result Hus2) as (h3 & Hfree & Hbl3 & Hlog3).
  exists v_res, h2, h3. unfold ocaml_parse_to_string.
  rewrite Hparse, Hcopy, Hfree. split_and!; auto.
  by rewrite Hlog3, Hlog2.
Qed.

(** How the exception leaves the binding: after the parser's call and
    before anything else, with the heap as the parser left it. *)
Lemma shim_raises (rt : Z → bool)
    (parse_to_string : heap → N → option (heap * N))
    (h h1 : heap) (v result : N) (s : list byte) :
  parse_to_string h (String_val v) = Some (h1, result) →
  cstring h1 result = Some s → has_room rt (length s) = false →
  ocaml_parse_to_string rt parse_to_string v h
  = Raises h1 [EvParse (String_val v) result].
Proof.
  intros Hparse Hs Hroom. unfold ocaml_parse_to_string.
  by rewrite Hparse, (caml_copy_string_raises rt h1 result s Hs Hroom).
Qed.

(** On the path where the binding returns: when the parser returns a usable
    buffer that it allocated (not a live block before the call) for a text
    the runtime holds, and the runtime has room for the copy, what the
    binding did is: call the parser, copy the result, release the result.
    That is its one release; the released pointer is not the input, and the
    block of the input is after the call as the parser left it. *)
Lemma shim_single_release (rt : Z → bool)
    (parse_to_string : heap → N → option (heap * N))
    (h h1 : heap) (v result : N) :
  parse_to_string h (String_val v) = Some (h1, result) →
  usable h1 result →
  copy_fits rt h1 result →
  h_blocks h !! result = None →
  (∃ cells, h_blocks h !! v = Some (Block Managed cells)) →
  ∃ v_res h3 tr,
    ocaml_parse_to_string rt parse_to_string v h = Returns v_res h3 tr
    ∧ List.filter is_free tr = [EvFree result]
    ∧ h_log h3 = h_log h1 ++ [HRelease result]
    ∧ result ≠ v
    ∧ (∀ blk, h_blocks h1 !! v = Some blk → h_blocks h3 !! v = Some blk).
Proof.
  intros Hparse Hus (s & Hs & Hroom) Hnew [cells Hv].
  destruct (shim_returns rt parse_to_string h h1 v result s Hparse Hus Hs Hroom)
    as (v_res & h2 & h3 & Hret & Hne & Hfresh & Hbl2 & Hbl3 & Hlog).
  assert (Hrv : result ≠ v) by (intros ->; congruence).
  exists v_res, h3. eexists. split; [apply Hret|].
  split_and!; auto.
  intros blk Hblk. rewrite Hbl3, lookup_delete_ne by done.
  rewrite Hbl2, lookup_insert_ne; [done|]. intros ->. congruence.
Qed.

(** The three ways the binding ends: it returns, on a usable result that
    the runtime has room to copy; the exception leaves it, on a readable
    result that the runtime has no room to copy; it is undefined
    otherwise. *)
Lemma shim_cases (rt : Z → bool)
    (parse_to_string : heap → N → option (heap * N))
    (h h1 : heap) (v r : N) :
  parse_to_string h (String_val v) = Some (h1, r) →
  (usable h1 r ∧ copy_fits rt h1 r ∧
   ∃ v_res h3 tr,
     ocaml_parse_to_string rt parse_to_string v h = Returns v_res h3 tr)
  ∨ (is_Some (cstring h1 r) ∧ ¬ copy_fits rt h1 r ∧
     ocaml_parse_to_string rt parse_to_string v h
     = Raises h1 [EvParse (String_val v) r])
  ∨ ((¬ usable h1 r) ∧
     ocaml_parse_to_string rt parse_to_string v h = UndefinedCall).
Proof.
  intros Hparse.
  destruct (cstring h1 r) as [s|] eqn:Hs.
  - destruct (has_room rt (length s)) eqn:Hroom.
    + assert (Hfits : copy_fits rt h1 r) by (by exists s).
      destruct (string_value s h1) as [h2 v_res] eqn:Halloc.
      assert (Hcopy : caml_copy_string rt r h1 = Copied h2 v_res).
      { unfold caml_copy_string, caml_alloc_string.
        by rewrite Hs, Hroom, Halloc. }
      destruct (free r h2) as [h3|] eqn:Hfree.
      * assert (Hus : usable h1 r).
        { split; [eauto|].
          pose proof (cstring_live _ _ _ Hs) as [Hr [blk Hblk]].
          apply free_defined in Hfree as [->|[cells Hcells]]; [done|].
          destruct h1 as [bl k log]. simpl in *.
          inversion Halloc; subst; clear Halloc. simpl in Hcells.
          rewrite lookup_insert_ne in Hcells; [eauto|].
          intros E. pose proof (fresh_addr_unused bl) as Hf.
          rewrite E in Hf. congruence. }
        left. split_and!; [done..|].
        destruct (shim_returns rt parse_to_string h h1 v r s Hparse Hus Hs Hroom)
          as (v' & h2' & h3' & Hret & _). eauto.
      * right. right. split.
        -- intros Hus.
           destruct (caml_copy_string_usable rt h1 r s Hus Hs Hroom)
             as (h2' & v' & Hcopy' & _ & _ & _ & _ & _ & Hus2).
           rewrite Hcopy in Hcopy'. inversion Hcopy'; subst.
           destruct (free_usable h2' r Hus2) as (h3 & Hfree' & _). congruence.
        -- unfold ocaml_parse_to_string. by rewrite Hparse, Hcopy, Hfree.
    + right. left. split_and!; [eauto| |].
      * intros (s' & Hs' & Hroom'). congruence.
      * by apply (shim_raises rt parse_to_string h h1 v r s).
  - right. right. split.
    + intros [[s' Hs'] _]. congruence.
    + unfold ocaml_parse_to_string, caml_copy_string. by rewrite Hparse, Hs.
Qed.

(** From line 54, [main] either exits with [EXIT_SUCCESS], on a usable
    result, or is undefined. *)
Lemma main_cases (al : nat → Z → bool)
    (parse_to_string : heap → N → option (heap * N))
    (m : machine) (h1 : heap) (r : N) :
  m_pc m = L54 →
  parse_to_string (m_heap m) (buffer m) = Some (h1, r) →
  (usable h1 r ∧
   ∃ m', main_run al parse_to_string 4 m = Exited EXIT_SUCCESS m')
  ∨ (¬ usable h1 r ∧ main_run al parse_to_string 4 m = Undefined).
Proof.
  destruct m as [l cap sz buf ch nb rs h inp tr]. simpl. intros -> Hparse.
  cbn [main_run main_step]. rewrite Hparse. cbn [main_run main_step].
  destruct (cstring h1 r) as [s|] eqn:Hs; cbn [main_run main_step].
  - destruct (free r h1) as [h3|] eqn:Hfree; cbn [main_run main_step].
    + left. split; [|eauto]. split; [eauto|].
      pose proof (cstring_live _ _ _ Hs) as [Hr _].
      by apply free_defined in Hfree as [->|Hcells].
    + right. split; [|done]. intros Hus.
      destruct (free_usable h1 r Hus) as (h3 & Hfree' & _). congruence.
  - right. split; [|done]. intros [[s' Hs'] _]. congruence.
Qed.

Lemma null_not_usable (h : heap) : ¬ usable h NULL.
Proof. intros [[s Hs] _]. by apply cstring_live in Hs as [Hs _]. Qed.

(** C9.  Neither caller looks at what the parser returned.  The binding
    returns only when the result is usable (a live malloc'ed block that
    holds a terminated string), and then exactly when the runtime has room
    to copy it; on a result that is not usable it is undefined unless the
    copy raises first, and on a result that is no readable string, in
    particular a null result, it is undefined whatever the runtime does.
    From line 54, [main] reaches its exit with [EXIT_SUCCESS] exactly when
    the result is usable and is undefined otherwise, in particular on a
    null result. *)
Theorem unchecked_parser_result
    (al : nat → Z → bool) (rt : Z → bool)
    (parse_to_string : heap → N → option (heap * N)) :
  (∀ h v h1 r,
     parse_to_string h (String_val v) = Some (h1, r) →
     ((∃ v_res h3 tr,
         ocaml_parse_to_string rt parse_to_string v h = Returns v_res h3 tr)
      ↔ usable h1 r ∧ copy_fits rt h1 r)
     ∧ (¬ usable h1 r →
        (∀ s, cstring h1 r = Some s → has_room rt (length s) = true) →
        ocaml_parse_to_string rt parse_to_string v h = UndefinedCall)
     ∧ (cstring h1 r = None →
        ocaml_parse_to_string rt parse_to_string v h = UndefinedCall)
     ∧ (r = NULL →
        ocaml_parse_to_string rt parse_to_string v h = UndefinedCall))
  ∧ (∀ m h1 r,
       m_pc m = L54 →
       parse_to_string (m_heap m) (buffer m) = Some (h1, r) →
       ((∃ m', main_run al parse_to_string 4 m = Exited EXIT_SUCCESS m')
        ↔ usable h1 r)
       ∧ (¬ usable h1 r → main_run al parse_to_string 4 m = Undefined)
       ∧ (r = NULL → main_run al parse_to_string 4 m = Undefined)).
Proof.
  split.
  - intros h v h1 r Hparse.
    destruct (shim_cases rt parse_to_string h h1 v r Hparse)
      as [(Hus & Hfits & Hret) | [([s Hs] & Hno & Hraise) | (Hno & Hundef)]].
    + split_and!; [done|done| |].
      * intros Hnone. destruct Hus as [[s Hs] _]. congruence.
      * intros ->. by apply null_not_usable in Hus.
    + split_and!.
      * split; [|by intros [_ ?]].
        intros (v_res & h3 & tr & Hret). congruence.
      * intros _ Hroom. destruct Hno. exists s. auto.
      * congruence.
      * intros ->. by apply cstring_live in Hs as [? _].
    + split_and!; [|done..]. split; [|by intros [? _]].
      intros (v_res & h3 & tr & Hret). congruence.
  - intros m h1 r Hpc Hparse.
    destruct (main_cases al parse_to_string m h1 r Hpc Hparse)
      as [[Hus Hret] | [Hno Hundef]].
    + split_and!; [done|done|]. intros ->. by apply null_not_usable in Hus.
    + split_and!; [|done..]. split; [|done].
      intros (m' & Hret). congruence.
Qed.

(** ** The two callers on the echoing stub *)

(** C3.  With the parser that echoes its input, [main] on the input "abc"
    exits with [EXIT_SUCCESS] having written RESULT:, a newline, abc and a
    newline to standard output, and on the empty input having written
    RESULT: and two newlines. *)
Theorem cli_echo_output :
  (∃ m, main grant_all (echo_parser grant_all) (bytes "abc") 22
        = Exited EXIT_SUCCESS m
        ∧ stdout_of (m_trace m) = bytes "RESULT:" ++ nl ++ bytes "abc" ++ nl)
  ∧ (∃ m, main grant_all (echo_parser grant_all) [] 13
          = Exited EXIT_SUCCESS m
          ∧ stdout_of (m_trace m) = bytes "RESULT:" ++ nl ++ nl).
Proof.
  split; eexists; (split; [vm_compute; reflexivity | vm_compute; reflexivity]).
Qed.

(** C6.  With the parser that echoes its input, the binding called on the
    string value "hello" returns, whatever room the runtime's major heap
    has, a string value whose text is "hello", and the harness has then
    counted as many allocations as releases (one of each). *)
Theorem shim_echo_hello :
  ∀ rt : Z → bool,
  ∃ v_res h tr,
    ocaml_parse_to_string rt (echo_parser grant_all)
      (snd (string_value (bytes "hello") empty_heap))
      (fst (string_value (bytes "hello") empty_heap))
    = Returns v_res h tr
    ∧ managed_text h v_res = Some (bytes "hello")
    ∧ allocations h = releases h
    ∧ allocations h = 1%nat.
Proof.
  intros rt. eexists _, _, _. split; [vm_compute; reflexivity|].
  split_and!; vm_compute; reflexivity.
Qed.

(** C7 (what the code does).  With the echoing parser, a text of 2048
    bytes and a runtime whose major heap is full, [caml_copy_string] raises
    [Out_of_memory] and the exception leaves the binding before line 15:
    the call made no release, and the buffer the parser allocated is still
    a live block (one allocation, no release). *)
Theorem shim_skips_release_on_out_of_memory :
  ∃ h result,
    ocaml_parse_to_string major_heap_full (echo_parser grant_all)
      (snd (string_value (repeat x61 2048) empty_heap))
      (fst (string_value (repeat x61 2048) empty_heap))
    = Raises h
        [EvParse (String_val (snd (string_value (repeat x61 2048) empty_heap)))
           result]
    ∧ (∃ cells, h_blocks h !! result = Some (Block Malloced cells))
    ∧ allocations h = 1%nat
    ∧ releases h = 0%nat.
Proof.
  eexists _, _. split; [vm_compute; reflexivity|].
  split_and!; [eexists; vm_compute; reflexivity | vm_compute; reflexivity..].
Qed.

(** C8 (what the code does).  On the input "abc" with the echoing parser
    [main] exits with [EXIT_SUCCESS] while the input buffer is still a live
    block: [main] released the parser's result and nothing else, two
    allocations were made and one release. *)
Theorem main_keeps_buffer_allocated :
  ∃ m, main grant_all (echo_parser grant_all) (bytes "abc") 22
       = Exited EXIT_SUCCESS m
       ∧ is_Some (h_blocks (m_heap m) !! buffer m)
       ∧ List.filter is_free (m_trace m) = [EvFree (res m)]
       ∧ res m ≠ buffer m
       ∧ allocations (m_heap m) = 2%nat
       ∧ releases (m_heap m) = 1%nat.
Proof.
  eexists. split; [vm_compute; reflexivity|].
  split_and!; try (vm_compute; reflexivity).
  - vm_compute. eauto.
  - vm_compute. discriminate.
Qed.

(** ** Instances *)

Lemma grant_all_bounded : bounded_allocator grant_all.
Proof. intros k n H. unfold grant_all in H. by apply Z.leb_le in H. Qed.

Lemma refuse_nth_bounded (i : nat) : bounded_allocator (refuse_nth i).
Proof.
  intros k n H. unfold refuse_nth in H.
  apply andb_true_iff in H as [_ H]. by apply Z.leb_le in H.
Qed.

Lemma entry_run_reachable al parse_to_string stdin (n : nat) (m : machine) :
  main al parse_to_string stdin n = Running m →
  reachable al parse_to_string stdin m.
Proof.
  intros H. apply (main_run_reachable al parse_to_string stdin n (main_entry stdin));
    [constructor | done].
Qed.

(** The lengths around the initial capacity: 1023 bytes and their
    terminator fill the first block; the 1024th byte doubles it. *)
Example accumulate_1023 :
  ∃ m, main grant_all (echo_parser grant_all) (repeat x61 1023) 3077 = Running m
       ∧ m_pc m = L52 ∧ size m = 1023 ∧ capacity m = 1024.
Proof. eexists. split; [vm_compute; reflexivity|]. done. Qed.

Example accumulate_1024 :
  ∃ m, main grant_all (echo_parser grant_all) (repeat x61 1024) 3084 = Running m
       ∧ m_pc m = L52 ∧ size m = 1024 ∧ capacity m = 2048.
Proof. eexists. split; [vm_compute; reflexivity|]. done. Qed.

Example accumulate_1025 :
  ∃ m, main grant_all (echo_parser grant_all) (repeat x61 1025) 3087 = Running m
       ∧ m_pc m = L52 ∧ size m = 1025 ∧ capacity m = 2048.
Proof. eexists. split; [vm_compute; reflexivity|]. done. Qed.

Lemma accumulated_buffer_witness :
  bounded_allocator grant_all ∧
  ∃ m, main grant_all (echo_parser grant_all) (bytes "abc") 17
       = Running m
       ∧ size m = 3
       ∧ holds (m_heap m) (buffer m) (capacity m) (bytes "abc" ++ [x00]).
Proof.
  split; [apply grant_all_bounded|].
  eexists. split; [vm_compute; reflexivity|].
  destruct (accumulated_buffer grant_all (echo_parser grant_all) (bytes "abc")
              grant_all_bounded) as (Hat52 & _).
  edestruct Hat52 as (Hs & Hh & _);
    [apply (entry_run_reachable _ _ _ 17); vm_compute; reflexivity
    | reflexivity |].
  split; [exact Hs | exact Hh].
Defined.

Lemma capacity_growth_witness :
  bounded_allocator grant_all ∧
  ∃ m, main grant_all (echo_parser grant_all) (repeat x61 1024) 3084 = Running m
       ∧ geometric (capacity m)
       ∧ size m + 1 ≤ capacity m
       ∧ capacity m = 2048.
Proof.
  split; [apply grant_all_bounded|].
  eexists. split; [vm_compute; reflexivity|].
  destruct (capacity_growth grant_all (echo_parser grant_all) (repeat x61 1024)
              grant_all_bounded) as (_ & _ & Hat52 & _).
  edestruct Hat52 as (Hg & Hfit & _);
    [apply (entry_run_reachable _ _ _ 3084); vm_compute; reflexivity
    | reflexivity |].
  split_and!; [exact Hg | exact Hfit | reflexivity].
Defined.

Lemma capacity_invariant_witness :
  bounded_allocator grant_all ∧
  ∃ m, main grant_all (echo_parser grant_all) (bytes "abc") 11
       = Running m
       ∧ m_pc m = L48
       ∧ size m + 1 ≤ capacity m.
Proof.
  split; [apply grant_all_bounded|].
  eexists. split; [vm_compute; reflexivity|].
  split; [reflexivity|].
  apply (proj1 (capacity_invariant grant_all (echo_parser grant_all)
                  (bytes "abc") grant_all_bounded));
    [apply (entry_run_reachable _ _ _ 11); vm_compute; reflexivity
    | reflexivity].
Defined.

Lemma allocation_failure_exit_witness :
  bounded_allocator (refuse_nth 0) ∧
  ∃ m, main (refuse_nth 0) (echo_parser (refuse_nth 0)) (bytes "abc") 4 = Running m
       ∧ m_pc m = L30 ∧ buffer m = NULL
       ∧ ∃ m', main_run (refuse_nth 0) (echo_parser (refuse_nth 0)) 3 m
               = Exited EXIT_FAILURE m'
               ∧ m_trace m' = m_trace m
                   ++ [EvPerror (bytes "Could not allocate buffer with capacity")]
               ∧ existsb is_parse (m_trace m') = false.
Proof.
  split; [apply refuse_nth_bounded|].
  eexists. split; [vm_compute; reflexivity|].
  split; [reflexivity|]. split; [reflexivity|].
  apply (proj1 (allocation_failure_exit (refuse_nth 0)
                  (echo_parser (refuse_nth 0)) (bytes "abc")
                  (refuse_nth_bounded 0)));
    [apply (entry_run_reachable _ _ _ 4); vm_compute; reflexivity
    | reflexivity | reflexivity].
Defined.

Lemma realloc_failure_frees_buffer_witness :
  bounded_allocator (refuse_nth 1) ∧
  ∃ m, main (refuse_nth 1) (echo_parser (refuse_nth 1)) (repeat x61 1024) 3079
       = Running m
       ∧ m_pc m = L41 ∧ newbuf m = NULL
       ∧ (∃ old w, holds (m_heap m) (buffer m) old w)
       ∧ ∃ m', main_run (refuse_nth 1) (echo_parser (refuse_nth 1)) 4 m
               = Exited EXIT_FAILURE m'
               ∧ m_trace m' = m_trace m
                   ++ [EvFree (buffer m);
                       EvPerror (bytes "Could not reallocate buffer with capacity")]
               ∧ h_blocks (m_heap m') = ∅.
Proof.
  split; [apply refuse_nth_bounded|].
  eexists. split; [vm_compute; reflexivity|].
  split; [reflexivity|]. split; [reflexivity|].
  apply (realloc_failure_frees_buffer (refuse_nth 1)
           (echo_parser (refuse_nth 1)) (repeat x61 1024)
           (refuse_nth_bounded 1));
    [apply (entry_run_reachable _ _ _ 3079); vm_compute; reflexivity
    | reflexivity | reflexivity].
Defined.

Lemma unchecked_parser_result_witness :
  ocaml_parse_to_string major_heap_free null_parser
    (snd (string_value (bytes "hello") empty_heap))
    (fst (string_value (bytes "hello") empty_heap))
  = UndefinedCall
  ∧ ∃ m, main grant_all null_parser (bytes "abc") 18 = Running m
         ∧ m_pc m = L54
         ∧ main_run grant_all null_parser 4 m = Undefined.
Proof.
  destruct (unchecked_parser_result grant_all major_heap_free null_parser)
    as [Hshim Hmain].
  split.
  - eapply Hshim; reflexivity.
  - eexists. split; [vm_compute; reflexivity|]. split; [reflexivity|].
    eapply Hmain; reflexivity.
Defined.

(** * Further properties of [main] *)

Lemma stdout_of_snoc (tr : list event) (e : event) :
  stdout_of (tr ++ [e])
  = stdout_of tr ++ match e with EvPrintf out => out | _ => [] end.
Proof.
  unfold stdout_of. rewrite flat_map_app. simpl. by rewrite app_nil_r.
Qed.

Lemma reallocations_snoc (tr : list event) (e : event) :
  reallocations (tr ++ [e])
  = (reallocations tr + if is_grown e then 1 else 0)%nat.
Proof.
  unfold reallocations. rewrite List.filter_app, length_app. simpl.
  by destruct (is_grown e).
Qed.

Lemma pow2_succ (k : nat) : 2 ^ Z.of_nat (k + 1) = 2 * 2 ^ Z.of_nat k.
Proof.
  rewrite Nat2Z.inj_add, Z.pow_add_r by lia. change (2 ^ Z.of_nat 1) with 2. lia.
Qed.

(** ** Strings in blocks, and the echoing stub *)

(** A string read from a block has no null in it. *)
Lemma cstring_cells_until_null (cells : list (option byte)) (s : list byte) :
  cstring_cells cells = Some s → until_null s = s.
Proof.
  revert s. induction cells as [|[b|] cells IH]; intros s; simpl; try done.
  destruct (Byte.eqb b x00) eqn:Hb; [by intros [= <-]|].
  destruct (cstring_cells cells) as [s'|]; [|done].
  intros [= <-]. simpl. rewrite Hb. f_equal. by apply IH.
Qed.

Lemma until_null_idempotent (w : list byte) :
  until_null (until_null w) = until_null w.
Proof.
  apply (cstring_cells_until_null ((Some <$> (w ++ [x00])) ++ [])).
  apply cstring_cells_terminated.
Qed.

Lemma until_null_no_null (w : list byte) :
  Forall (λ b, b ≠ x00) w → until_null w = w.
Proof.
  induction 1 as [|b w Hb _ IH]; [done|]. simpl.
  destruct (Byte.eqb b x00) eqn:E; [|by rewrite IH].
  by apply Byte.byte_dec_bl in E.
Qed.

Lemma mapM_id_Some {A} (l : list A) : mapM id (Some <$> l) = Some l.
Proof.
  apply mapM_Some. induction l as [|x l IH]; simpl; by constructor.
Qed.

(** The text of a string value made of [s] and its final null is [s]. *)
Lemma managed_text_insert (bl : gmap N block) (k : nat)
    (log : list heap_event) (v : N) (s : list byte) :
  managed_text
    (Heap (<[v := Block Managed (Some <$> (s ++ [x00]))]> bl) k log) v
  = Some s.
Proof.
  unfold managed_text. simpl. rewrite lookup_insert_eq, mapM_id_Some.
  f_equal. rewrite length_app. simpl.
  replace (length s + 1 - 1)%nat with (length s) by lia.
  apply take_app_length.
Qed.

(** The echoing stub, when its own allocation is granted: one fresh block
    that holds the string it was given, and nothing else changed. *)
Lemma echo_parser_granted (h : heap) (p : N) (s : list byte) :
  cstring h p = Some s →
  ∃ h1 r,
    echo_parser always_grant h p = Some (h1, r)
    ∧ r ≠ NULL
    ∧ h_blocks h !! r = None
    ∧ h_blocks h1 = <[r := Block Malloced (Some <$> (s ++ [x00]))]> (h_blocks h)
    ∧ h_log h1 = h_log h ++ [HAlloc r (Z.of_nat (length s) + 1)]
    ∧ cstring h1 r = Some s.
Proof.
  intros Hs. destruct h as [bl k log]. unfold echo_parser. rewrite Hs.
  unfold malloc, always_grant. simpl.
  pose proof (fresh_addr_not_null bl) as Hnn.
  pose proof (fresh_addr_unused bl) as Hfresh.
  rewrite decide_False by done. unfold fill.
  rewrite lookup_insert_eq, insert_insert_eq.
  assert (Hdrop : drop (length (s ++ [x00]))
                    (uninit (Z.of_nat (length s) + 1)) = []).
  { apply drop_ge. unfold uninit. rewrite length_replicate, length_app.
    simpl. lia. }
  rewrite Hdrop, app_nil_r.
  eexists _, _. split; [reflexivity|]. simpl. split_and!; auto.
  unfold cstring. simpl. rewrite decide_False by done.
  rewrite lookup_insert_eq. simpl.
  rewrite <- (app_nil_r (Some <$> s ++ [x00])), cstring_cells_terminated.
  f_equal. unfold cstring in Hs. destruct (decide (p = NULL)); [done|].
  simpl in Hs. destruct (bl !! p) as [blk|]; [|done].
  by apply (cstring_cells_until_null _ _ Hs).
Qed.

Lemma echo_parser_usable (h : heap) (p : N) (s : list byte) :
  cstring h p = Some s →
  ∃ h1 r, echo_parser always_grant h p = Some (h1, r) ∧ usable h1 r.
Proof.
  intros Hs.
  destruct (echo_parser_granted h p s Hs)
    as (h1 & r & He & _ & _ & Hbl & _ & Hc).
  exists h1, r. split; [done|]. split; [eauto|].
  eexists. rewrite Hbl. apply lookup_insert_eq.
Qed.

Lemma echo_honours_contract : honours_contract (echo_parser always_grant).
Proof. intros h p s. apply echo_parser_usable. Qed.

Section MainFurther.

Variable al : nat → Z → bool.
Variable parse_to_string : heap → N → option (heap * N).
Variable stdin : list byte.
Hypothesis al_bounded : bounded_allocator al.

(** ** No line of the accumulation is undefined *)

Lemma Inv_defined (m : machine) :
  Inv stdin m → before_parse (m_pc m) = true →
  main_step al parse_to_string m ≠ Undefined.
Proof.
  destruct m as [l cap sz buf ch nb rs h inp tr].
  destruct l; simpl; intros HI Hl; try discriminate.
  - (* 29 *) by destruct (malloc al cap h).
  - (* 30 *) by case_decide.
  - (* 37 *) destruct (fgetc inp). by case_decide.
  - (* 38 *) by case_decide.
  - (* 40 *)
    destruct HI as (w & b & old & _ & _ & Hsz & Hfull & Hcap & Hh & _).
    destruct (realloc_holds al buf old cap w h Hh) as (q & h' & -> & _);
      [lia | lia | done].
  - (* 41 *) by case_decide.
  - (* 42 *) destruct HI as (w & old & _ & _ & _ & Hh & _).
    by destruct (free_holds buf old w h Hh) as (h' & -> & _).
  - (* 48 *) destruct HI as (w & b & _ & _ & Hsz & Hroom & Hh & _).
    destruct (store_holds buf cap w (char_of_int ch) h Hh) as (h' & Hs & _);
      [lia|]. by rewrite Hsz, Hs.
  - (* 51 *) destruct HI as (_ & Hsz & Hh & (_ & Hfit & _) & _).
    destruct (store_holds buf cap stdin x00 h Hh) as (h' & Hs & _); [lia|].
    by rewrite Hsz, Hs.
  - (* 52 *) destruct HI as (_ & Hh & _).
    by rewrite (cstring_holds _ _ _ _ Hh).
Qed.

(** ** The three further invariants *)

Lemma Tight_entry : Tight (main_entry stdin).
Proof. done. Qed.

Lemma Tight_step (m m' : machine) :
  Inv stdin m → Tight m →
  main_step al parse_to_string m = Running m' → Tight m'.
Proof.
  destruct m as [l cap sz buf ch nb rs h inp tr].
  unfold Tight, tight.
  destruct l; simpl; intros HI HT Hstep;
    try (repeat case_match; simplify_eq; simpl; first [done | lia | tauto]).
  - (* 39 *)
    destruct HI as (w & b & _ & _ & Hsz & Hfull & _ & (Hg & _ & Hmax) & _).
    apply geometric_ge in Hg.
    rewrite size_t_double in Hstep by lia.
    simplify_eq. simpl. lia.
  - (* 48 *)
    destruct HI as (w & b & _ & _ & Hsz & Hroom & _ & (_ & _ & Hmax) & _).
    rewrite PTRDIFF_MAX_value in Hmax.
    rewrite size_t_small in Hstep by (rewrite SIZE_MAX_value; lia).
    case_match; simplify_eq. simpl. lia.
Qed.

Lemma Counted_entry : Counted (main_entry stdin).
Proof. done. Qed.

Lemma Counted_step (m m' : machine) :
  Inv stdin m → Counted m →
  main_step al parse_to_string m = Running m' → Counted m'.
Proof.
  destruct m as [l cap sz buf ch nb rs h inp tr].
  unfold Counted.
  destruct l; simpl; intros HI HC Hstep;
    try (repeat case_match; simplify_eq; simpl;
         rewrite ?reallocations_snoc; simpl; rewrite ?Nat.add_0_r;
         first [done | lia]).
  - (* 27 *) simplify_eq. simpl. by rewrite HC.
  - (* 39 *)
    destruct HI as (w & b & _ & _ & Hsz & Hfull & _ & (Hg & _ & Hmax) & _).
    apply geometric_ge in Hg.
    rewrite size_t_double in Hstep by lia.
    simplify_eq. simpl. lia.
  - (* 40 *)
    destruct (realloc al buf cap h) as [[q h']|]; [|done].
    simplify_eq. simpl. rewrite reallocations_snoc. simpl.
    case_decide as Hq.
    + subst q. simpl. by rewrite Nat.add_0_r.
    + rewrite not_null_eqb by done. simpl. rewrite pow2_succ. lia.
Qed.

Lemma Printed_entry : Printed (main_entry stdin).
Proof. done. Qed.

Lemma Printed_step (m m' : machine) :
  Printed m → main_step al parse_to_string m = Running m' → Printed m'.
Proof.
  destruct m as [l cap sz buf ch nb rs h inp tr].
  unfold Printed.
  destruct l; simpl; intros HP Hstep;
    repeat case_match; simplify_eq; simpl;
    rewrite ?stdout_of_snoc, ?app_nil_r; try done.
  rewrite HP. simpl. eauto.
Qed.

Lemma reachable_further (m : machine) :
  reachable al parse_to_string stdin m → Tight m ∧ Counted m ∧ Printed m.
Proof.
  induction 1 as [|m m' Hreach (HT & HC & HP) Hstep].
  - split_and!; [apply Tight_entry | apply Counted_entry | apply Printed_entry].
  - pose proof (reachable_Inv al parse_to_string stdin al_bounded m Hreach) as HI.
    split_and!;
      [ by apply (Tight_step m m')
      | by apply (Counted_step m m')
      | by apply (Printed_step m m') ].
Qed.

Lemma main_run_undefined (n : nat) (m : machine) :
  reachable al parse_to_string stdin m →
  main_run al parse_to_string n m = Undefined →
  ∃ m1, reachable al parse_to_string stdin m1
        ∧ main_step al parse_to_string m1 = Undefined.
Proof.
  revert m. induction n as [|n IH]; intros m Hm Hrun; simpl in Hrun;
    [discriminate|].
  destruct (main_step al parse_to_string m) as [m1| |] eqn:Hstep;
    try discriminate.
  - apply (IH m1); [|done]. by apply (reach_step _ _ _ m m1).
  - by exists m.
Qed.

(** X1.  On every input and with every allocator, no line of [main] up to
    the call of the parser is undefined: every write is inside the buffer
    and every pointer handed to [realloc], [free] or [%s] is a live block.
    A run of [main] can be undefined only at line 54 or after. *)
Theorem accumulation_never_undefined :
  (∀ m, reachable al parse_to_string stdin m →
        before_parse (m_pc m) = true →
        main_step al parse_to_string m ≠ Undefined)
  ∧ (∀ fuel, main al parse_to_string stdin fuel = Undefined →
       ∃ m, reachable al parse_to_string stdin m
            ∧ before_parse (m_pc m) = false
            ∧ main_step al parse_to_string m = Undefined).
Proof.
  assert (Hsafe : ∀ m, reachable al parse_to_string stdin m →
            before_parse (m_pc m) = true →
            main_step al parse_to_string m ≠ Undefined).
  { intros m Hreach. apply Inv_defined.
    by apply (reachable_Inv al parse_to_string stdin al_bounded). }
  split; [done|].
  intros fuel Hrun. unfold main in Hrun.
  apply main_run_undefined in Hrun as (m & Hreach & Hstep); [|constructor].
  exists m. split_and!; auto.
  destruct (before_parse (m_pc m)) eqn:Hl; [|done].
  by destruct (Hsafe m Hreach Hl).
Qed.

(** X2.  What the parser is given at line 54 is a terminated string: the
    bytes of standard input before the first null byte, all of them when
    the input has no null byte. *)
Theorem parser_receives_input_up_to_null :
  ∀ m, reachable al parse_to_string stdin m → m_pc m = L54 →
       cstring (m_heap m) (buffer m) = Some (until_null stdin)
       ∧ (Forall (λ b, b ≠ x00) stdin →
          cstring (m_heap m) (buffer m) = Some stdin).
Proof.
  intros m Hreach Hpc. apply (reachable_Inv al parse_to_string stdin al_bounded) in Hreach.
  destruct m as [l cap sz buf ch nb rs h inp tr]. simpl in *. subst l.
  destruct Hreach as (_ & Hh & _).
  rewrite (cstring_holds _ _ _ _ Hh). split; [done|].
  intros Hno. by rewrite until_null_no_null.
Qed.

(** X3.  A run that exits with [EXIT_SUCCESS] called the parser exactly
    once, on the buffer, and [res] is what that call returned; a run that
    exits otherwise never called it. *)
Theorem parser_called_once :
  ∀ fuel code m,
    main al parse_to_string stdin fuel = Exited code m →
    List.filter is_parse (m_trace m)
    = if decide (code = EXIT_SUCCESS) then [EvParse (buffer m) (res m)]
      else [].
Proof.
  intros fuel code m Hrun. unfold main in Hrun.
  apply (main_run_exit al parse_to_string stdin) in Hrun
    as [Hreach Hstep]; [|constructor].
  apply (reachable_Inv al parse_to_string stdin al_bounded) in Hreach. apply exit_lines in Hstep.
  destruct m as [l cap sz buf ch nb rs h inp tr]. simpl in *.
  destruct Hstep as [[[-> | ->] ->] | [-> ->]]; simpl in Hreach.
  - destruct Hreach as (_ & _ & _ & tr0 & msg & -> & (_ & Hp & _)).
    by rewrite List.filter_app, (filter_none _ _ Hp).
  - destruct Hreach as (_ & _ & _ & tr0 & msg & -> & (_ & Hp & _)).
    by rewrite List.filter_app, (filter_none _ _ Hp).
  - destruct Hreach as (_ & _ & tr0 & out & -> & (_ & Hp & _)).
    by rewrite List.filter_app, (filter_none _ _ Hp).
Qed.

(** X4.  Standard output is written by line 55 and by nothing else: a run
    that exits with [EXIT_FAILURE] has written nothing to it, and from line
    55, when the parser's result is a live malloc'ed block holding the
    string [s], [main] exits with [EXIT_SUCCESS] having written exactly
    RESULT:, a newline, [s] and a newline. *)
Theorem standard_output_format :
  (∀ fuel m, main al parse_to_string stdin fuel = Exited EXIT_FAILURE m →
             stdout_of (m_trace m) = [])
  ∧ (∀ m s, reachable al parse_to_string stdin m → m_pc m = L55 →
            cstring (m_heap m) (res m) = Some s →
            (∃ cells, h_blocks (m_heap m) !! res m
                      = Some (Block Malloced cells)) →
            ∃ m', main_run al parse_to_string 3 m = Exited EXIT_SUCCESS m'
                  ∧ stdout_of (m_trace m')
                    = bytes "RESULT:" ++ nl ++ s ++ nl).
Proof.
  split.
  - intros fuel m Hrun. unfold main in Hrun.
    apply (main_run_exit al parse_to_string stdin) in Hrun
    as [Hreach Hstep]; [|constructor].
    apply reachable_further in Hreach as (_ & _ & HP).
    apply exit_lines in Hstep. unfold Printed in HP.
    destruct Hstep as [[[Hl | Hl] _] | [_ ?]]; [| |done];
      by rewrite Hl in HP.
  - intros m s Hreach Hpc Hs Hlive.
    apply reachable_further in Hreach as (_ & _ & HP).
    unfold Printed in HP. rewrite Hpc in HP.
    destruct (free_usable (m_heap m) (res m)) as (h' & Hfree & _);
      [split; eauto|].
    destruct m as [l cap sz buf ch nb rs h inp tr]. simpl in *. subst l.
    cbn [main_run main_step]. rewrite Hs. cbn [main_run main_step].
    rewrite Hfree. cbn [main_run main_step].
    eexists. split; [reflexivity|]. simpl.
    by rewrite !stdout_of_snoc, HP, app_nil_r.
Qed.

Lemma geometric_least (cap cap' n : Z) :
  geometric cap → tight cap n → geometric cap' → n + 1 ≤ cap' → cap ≤ cap'.
Proof.
  intros [k ->] [Hk | Hk] Hg' Hn.
  - rewrite Hk. by apply geometric_ge.
  - destruct Hg' as [j ->].
    destruct (decide (k ≤ j)%nat) as [Hkj | Hkj].
    + assert (2 ^ Z.of_nat k ≤ 2 ^ Z.of_nat j)
        by (apply Z.pow_le_mono_r; lia). lia.
    + assert (Hj : 2 ^ Z.of_nat (j + 1) ≤ 2 ^ Z.of_nat k)
        by (apply Z.pow_le_mono_r; lia).
      rewrite pow2_succ in Hj. lia.
Qed.

(** X5.  After accumulation the capacity is the least doubling of 1024 that
    leaves room for the input and its terminator: it is at most
    [max 1024 (2 L)], and no smaller doubling would hold L + 1 bytes. *)
Theorem capacity_is_least_doubling :
  ∀ m, reachable al parse_to_string stdin m → m_pc m = L52 →
       capacity m ≤ Z.max 1024 (2 * Z.of_nat (length stdin))
       ∧ ∀ cap', geometric cap' → Z.of_nat (length stdin) + 1 ≤ cap' →
                 capacity m ≤ cap'.
Proof.
  intros m Hreach Hpc.
  pose proof (reachable_further m Hreach) as (HT & _ & _).
  apply (reachable_Inv al parse_to_string stdin al_bounded) in Hreach.
  unfold Tight in HT. rewrite Hpc in HT.
  destruct m as [l cap sz buf ch nb rs h inp tr]. simpl in *. subst l.
  destruct Hreach as (Hsz & _ & (Hg & _ & _) & _). subst sz.
  split.
  - destruct HT as [-> | HT]; lia.
  - intros cap' Hg' Hn. by apply (geometric_least cap cap' _ Hg HT).
Qed.

(** X6.  After accumulation the capacity is 1024 doubled once per
    successful [realloc], so [main] has grown its buffer only
    logarithmically often: [1024 * 2 ^ k <= max 1024 (2 L)] for the number
    [k] of its successful reallocations, and not at all when the input is
    shorter than 1024 bytes. *)
Theorem reallocations_logarithmic :
  ∀ m, reachable al parse_to_string stdin m → m_pc m = L52 →
       capacity m = 1024 * 2 ^ Z.of_nat (reallocations (m_trace m))
       ∧ 1024 * 2 ^ Z.of_nat (reallocations (m_trace m))
         ≤ Z.max 1024 (2 * Z.of_nat (length stdin))
       ∧ (Z.of_nat (length stdin) < 1024 → reallocations (m_trace m) = 0%nat).
Proof.
  intros m Hreach Hpc.
  pose proof (reachable_further m Hreach) as (HT & HC & _).
  apply (reachable_Inv al parse_to_string stdin al_bounded) in Hreach.
  unfold Tight in HT. unfold Counted in HC. rewrite Hpc in HT, HC.
  destruct m as [l cap sz buf ch nb rs h inp tr]. simpl in *. subst l.
  destruct Hreach as (Hsz & _ & _). subst sz.
  set (k := reallocations tr) in *.
  assert (Hle : cap ≤ Z.max 1024 (2 * Z.of_nat (length stdin)))
    by (destruct HT as [-> | HT]; lia).
  split_and!; [done | by rewrite <- HC |].
  intros Hshort. destruct k as [|k]; [done|].
  replace (S k) with (k + 1)%nat in HC by lia.
  rewrite pow2_succ in HC.
  assert (0 < 2 ^ Z.of_nat k) by (apply Z.pow_pos_nonneg; lia). lia.
Qed.

(** X7.  When the parser honours its contract (on a terminated string it
    returns a usable result), [main] is never undefined and always comes to
    an exit, with [EXIT_SUCCESS] or with [EXIT_FAILURE]. *)
Theorem main_exits_under_contract :
  honours_contract parse_to_string →
  ∃ fuel code m,
    main al parse_to_string stdin fuel = Exited code m
    ∧ (code = EXIT_SUCCESS ∨ code = EXIT_FAILURE).
Proof.
  intros Hcontract.
  destruct (accumulation_outcome al parse_to_string stdin al_bounded)
    as (fuel & [(m & Hm & Hpc) | (m & _ & _ & Hm & _)]).
  - assert (Hreach : reachable al parse_to_string stdin m).
    { apply (main_run_reachable al parse_to_string stdin fuel
               (main_entry stdin)); [constructor | done]. }
    pose proof (reachable_Inv al parse_to_string stdin al_bounded m Hreach)
      as HI.
    destruct m as [l cap sz buf ch nb rs h inp tr]. simpl in *. subst l.
    destruct HI as (_ & Hh & _).
    pose proof (cstring_holds _ _ _ _ Hh) as Hs.
    destruct (Hcontract h buf _ Hs) as (h1 & r & Hparse & Hus).
    destruct (main_cases al parse_to_string
                (Machine L54 cap sz buf ch nb rs h inp
                   (tr ++ [EvDebug 52
                             (bytes "Stdin read. Content: "
                              ++ until_null stdin)]))
                h1 r eq_refl Hparse)
      as [(_ & m' & Hexit) | (Hno & _)]; [|done].
    exists (fuel + (1 + 4))%nat, EXIT_SUCCESS, m'. split; [|by left].
    unfold main in *. rewrite main_run_add, Hm, main_run_add.
    cbn [main_run main_step]. rewrite Hs. exact Hexit.
  - exists fuel, EXIT_FAILURE, m. split; [done | by right].
Qed.

End MainFurther.

(** * Further properties of the binding *)

Lemma allocations_snoc_release (h h' : heap) (p : N) :
  h_log h' = h_log h ++ [HRelease p] →
  allocations h' = allocations h ∧ releases h' = S (releases h).
Proof.
  intros Hlog. unfold allocations, releases. rewrite Hlog.
  rewrite !List.filter_app, !length_app. simpl. lia.
Qed.

(** What a call of the binding leaves behind when it returns, given what
    the parser returned. *)
Lemma shim_effect (rt : Z → bool)
    (parse_to_string : heap → N → option (heap * N))
    (h h1 : heap) (v result : N) (s : list byte) :
  parse_to_string h (String_val v) = Some (h1, result) →
  cstring h1 result = Some s →
  (∃ cells, h_blocks h1 !! result = Some (Block Malloced cells)) →
  has_room rt (length s) = true →
  ∃ v_res h3 tr,
    ocaml_parse_to_string rt parse_to_string v h = Returns v_res h3 tr
    ∧ managed_text h3 v_res = Some s
    ∧ v_res ≠ result
    ∧ h_blocks h1 !! v_res = None
    ∧ h_blocks h3
      = delete result
          (<[v_res := Block Managed (Some <$> (s ++ [x00]))]> (h_blocks h1))
    ∧ allocations h3 = allocations h1
    ∧ releases h3 = S (releases h1).
Proof.
  intros Hparse Hs Hlive Hroom.
  assert (Hus : usable h1 result) by (split; eauto).
  destruct (shim_returns rt parse_to_string h h1 v result s Hparse Hus Hs Hroom)
    as (v_res & h2 & h3 & Hret & Hne & Hfresh & Hbl2 & Hbl3 & Hlog).
  eexists _, _, _. split; [exact Hret|].
  split_and!; auto.
  - unfold managed_text. rewrite Hbl3, Hbl2.
    rewrite lookup_delete_ne, lookup_insert_eq, mapM_id_Some by done.
    f_equal. rewrite length_app. simpl.
    replace (length s + 1 - 1)%nat with (length s) by lia.
    apply take_app_length.
  - by rewrite Hbl3, Hbl2.
  - by apply (allocations_snoc_release h1 h3 result).
  - by apply (allocations_snoc_release h1 h3 result).
Qed.

(** X8.  When the parser returns a live malloc'ed block that holds the
    string [s]: if the runtime has room for a copy of [s], the binding
    returns a new string value whose text is [s], the heap is then the one
    the parser left, without the parser's block and with the new value, and
    the harness has counted one more release and no more allocations than
    the parser made; if the runtime has no room, the exception
    [Out_of_memory] leaves the binding with the heap as the parser left
    it, the parser's block still allocated and nothing released. *)
Theorem shim_returns_parser_string
    (rt : Z → bool) (parse_to_string : heap → N → option (heap * N))
    (h h1 : heap) (v result : N) (s : list byte) :
  parse_to_string h (String_val v) = Some (h1, result) →
  cstring h1 result = Some s →
  (∃ cells, h_blocks h1 !! result = Some (Block Malloced cells)) →
  (has_room rt (length s) = true →
   ∃ v_res h3 tr,
     ocaml_parse_to_string rt parse_to_string v h = Returns v_res h3 tr
     ∧ managed_text h3 v_res = Some s
     ∧ h_blocks h1 !! v_res = None
     ∧ h_blocks h3
       = delete result
           (<[v_res := Block Managed (Some <$> (s ++ [x00]))]> (h_blocks h1))
     ∧ allocations h3 = allocations h1
     ∧ releases h3 = S (releases h1))
  ∧ (has_room rt (length s) = false →
     ocaml_parse_to_string rt parse_to_string v h
     = Raises h1 [EvParse (String_val v) result]).
Proof.
  intros Hparse Hs Hlive. split; intros Hroom.
  - destruct (shim_effect rt parse_to_string h h1 v result s
                Hparse Hs Hlive Hroom)
      as (v_res & h3 & tr & Hret & Htext & _ & Hfresh & Hbl & Ha & Hr).
    by exists v_res, h3, tr.
  - by apply (shim_raises rt parse_to_string h h1 v result s).
Qed.

Lemma string_value_cstring (t : list byte) (h : heap) :
  cstring (fst (string_value t h)) (snd (string_value t h))
  = Some (until_null t).
Proof.
  destruct h as [bl k log]. unfold string_value, cstring. simpl.
  rewrite decide_False by apply fresh_addr_not_null.
  rewrite lookup_insert_eq. simpl.
  rewrite <- (app_nil_r (Some <$> t ++ [x00])). apply cstring_cells_terminated.
Qed.

(** X9.  With the echoing stub, the binding called on any string value, in
    any heap.  If the runtime has room for the copy (always, for a text
    that is under 2048 bytes up to its first null byte), it returns a
    string value whose text is the text it was given up to its first null
    byte (all of it when it has none), and leaves the heap as it found it
    plus the returned value: the stub's buffer is allocated and released
    within the call.  If the runtime has no room, the exception leaves the
    call with the stub's buffer still allocated: one allocation, no
    release. *)
Theorem shim_echo_any_text (rt : Z → bool) (t : list byte) (h : heap) :
  (has_room rt (length (until_null t)) = true →
   ∃ v_res h3 tr,
     ocaml_parse_to_string rt (echo_parser always_grant)
       (snd (string_value t h)) (fst (string_value t h))
     = Returns v_res h3 tr
     ∧ managed_text h3 v_res = Some (until_null t)
     ∧ (Forall (λ b, b ≠ x00) t → managed_text h3 v_res = Some t)
     ∧ h_blocks (fst (string_value t h)) !! v_res = None
     ∧ h_blocks h3
       = <[v_res := Block Managed (Some <$> (until_null t ++ [x00]))]>
           (h_blocks (fst (string_value t h)))
     ∧ allocations h3 = S (allocations (fst (string_value t h)))
     ∧ releases h3 = S (releases (fst (string_value t h))))
  ∧ (has_room rt (length (until_null t)) = false →
     ∃ h1 tr buf,
       ocaml_parse_to_string rt (echo_parser always_grant)
         (snd (string_value t h)) (fst (string_value t h))
       = Raises h1 tr
       ∧ List.filter is_free tr = []
       ∧ h_blocks h1
         = <[buf := Block Malloced (Some <$> (until_null t ++ [x00]))]>
             (h_blocks (fst (string_value t h)))
       ∧ h_blocks (fst (string_value t h)) !! buf = None
       ∧ allocations h1 = S (allocations (fst (string_value t h)))
       ∧ releases h1 = releases (fst (string_value t h)))
  ∧ (Z.of_nat (length (until_null t)) < 2048 →
     has_room rt (length (until_null t)) = true).
Proof.
  pose proof (string_value_cstring t h) as Hc.
  set (h0 := fst (string_value t h)) in *.
  set (v := snd (string_value t h)) in *.
  destruct (echo_parser_granted h0 v (until_null t) Hc)
    as (h1 & r & He & Hr & Hnew & Hbl1 & Hlog1 & Hc1).
  assert (Hcount : allocations h1 = S (allocations h0)
                   ∧ releases h1 = releases h0).
  { unfold allocations, releases. rewrite Hlog1.
    rewrite !List.filter_app, !length_app. simpl. lia. }
  split_and!.
  - intros Hroom.
    destruct (shim_effect rt (echo_parser always_grant) h0 h1 v r (until_null t))
      as (v_res & h3 & tr & Hret & Htext & Hne & Hfresh & Hbl3 & Ha & Hrel);
      [done | done | eexists; rewrite Hbl1; apply lookup_insert_eq | done |].
    exists v_res, h3, tr. split; [done|].
    assert (Hfresh0 : h_blocks h0 !! v_res = None).
    { rewrite Hbl1, lookup_insert_ne in Hfresh; [done|]. by intros ->. }
    split_and!; auto.
    + intros Hno. by rewrite Htext, until_null_no_null.
    + rewrite Hbl3, Hbl1.
      rewrite delete_insert_ne, delete_insert_eq, delete_id by done. done.
    + rewrite Ha. apply Hcount.
    + rewrite Hrel. f_equal. apply Hcount.
  - intros Hroom. exists h1, [EvParse (String_val v) r], r.
    split; [by apply (shim_raises rt _ h0 h1 v r (until_null t))|].
    split_and!; [done | done | done | apply Hcount | apply Hcount].
  - intros Hshort. unfold has_room. apply orb_true_iff. left.
    apply Z.leb_le. unfold string_wosize, Max_young_wosize.
    assert ((Z.of_nat (length (until_null t)) + 8) / 8 < 257)
      by (apply Z.div_lt_upper_bound; lia).
    lia.
Qed.

(** * [main] on the echoing stub, for every input *)

(** X10.  With the echoing stub and an allocator that grants what [main]
    asks for (requests of at most [max 1024 (2 L)] bytes), [main] on any
    standard input exits with [EXIT_SUCCESS] having written RESULT:, a
    newline, the input up to its first null byte and a newline. *)
Theorem cli_echo_any_input (al : nat → Z → bool) (stdin : list byte) :
  bounded_allocator al →
  (∀ k n, n ≤ Z.max 1024 (2 * Z.of_nat (length stdin)) → al k n = true) →
  ∃ fuel m,
    main al (echo_parser always_grant) stdin fuel = Exited EXIT_SUCCESS m
    ∧ stdout_of (m_trace m)
      = bytes "RESULT:" ++ nl ++ until_null stdin ++ nl.
Proof.
  intros Hb Hgrant.
  destruct (accumulation_outcome al (echo_parser always_grant) stdin Hb)
    as (fuel & [(m & Hm & Hpc) | (m & k & n & _ & Hk & Hn)]).
  2: { rewrite (Hgrant k n Hn) in Hk. discriminate. }
  assert (Hreach : reachable al (echo_parser always_grant) stdin m).
  { apply (main_run_reachable al _ stdin fuel (main_entry stdin));
      [constructor | done]. }
  pose proof (reachable_Inv al _ stdin Hb m Hreach) as HI.
  pose proof (reachable_further al _ stdin Hb m Hreach) as (_ & _ & HP).
  unfold Printed in HP. rewrite Hpc in HP.
  destruct m as [l cap sz buf ch nb rs h inp tr]. simpl in *. subst l.
  destruct HI as (_ & Hh & _).
  pose proof (cstring_holds _ _ _ _ Hh) as Hs.
  destruct (echo_parser_granted h buf _ Hs)
    as (h1 & r & He & Hr & Hnew & Hbl1 & Hlog1 & Hc1).
  destruct (free_usable h1 r) as (h' & Hfree & _).
  { split; [eauto|]. eexists. rewrite Hbl1. apply lookup_insert_eq. }
  eexists (fuel + 5)%nat, _. unfold main in *.
  rewrite main_run_add, Hm.
  cbn [main_run main_step]. rewrite Hs.
  cbn [main_run main_step]. rewrite He.
  cbn [main_run main_step]. rewrite Hc1.
  cbn [main_run main_step]. rewrite Hfree.
  cbn [main_run main_step]. split; [reflexivity|]. simpl.
  by rewrite !stdout_of_snoc, HP, !app_nil_r.
Qed.

(** ** Instances of the further properties *)

Lemma accumulation_never_undefined_witness :
  bounded_allocator grant_all ∧
  ∃ m, main grant_all (echo_parser grant_all) (bytes "abc") 11 = Running m
       ∧ m_pc m = L48
       ∧ main_step grant_all (echo_parser grant_all) m ≠ Undefined.
Proof.
  split; [apply grant_all_bounded|].
  eexists. split; [vm_compute; reflexivity|]. split; [reflexivity|].
  apply (proj1 (accumulation_never_undefined grant_all
                  (echo_parser grant_all) (bytes "abc") grant_all_bounded));
    [apply (entry_run_reachable _ _ _ 11); vm_compute; reflexivity
    | reflexivity].
Defined.

Lemma parser_receives_input_up_to_null_witness :
  bounded_allocator grant_all ∧
  ∃ m, main grant_all (echo_parser grant_all) [x61; x00; x62] 18 = Running m
       ∧ m_pc m = L54
       ∧ cstring (m_heap m) (buffer m) = Some [x61].
Proof.
  split; [apply grant_all_bounded|].
  eexists. split; [vm_compute; reflexivity|]. split; [reflexivity|].
  apply (parser_receives_input_up_to_null grant_all (echo_parser grant_all)
           [x61; x00; x62] grant_all_bounded);
    [apply (entry_run_reachable _ _ _ 18); vm_compute; reflexivity
    | reflexivity].
Defined.

Lemma parser_called_once_witness :
  bounded_allocator grant_all ∧
  ∃ m, main grant_all (echo_parser grant_all) (bytes "abc") 22
       = Exited EXIT_SUCCESS m
       ∧ List.filter is_parse (m_trace m) = [EvParse (buffer m) (res m)].
Proof.
  split; [apply grant_all_bounded|].
  eexists. split; [vm_compute; reflexivity|].
  apply (parser_called_once grant_all (echo_parser grant_all) (bytes "abc")
           grant_all_bounded 22%nat EXIT_SUCCESS).
  vm_compute; reflexivity.
Defined.

Lemma standard_output_format_witness :
  bounded_allocator (refuse_nth 0) ∧
  ∃ m, main (refuse_nth 0) (echo_parser grant_all) (bytes "abc") 7
       = Exited EXIT_FAILURE m
       ∧ stdout_of (m_trace m) = [].
Proof.
  split; [apply refuse_nth_bounded|].
  eexists. split; [vm_compute; reflexivity|].
  apply (proj1 (standard_output_format (refuse_nth 0) (echo_parser grant_all)
                  (bytes "abc") (refuse_nth_bounded 0)) 7%nat).
  vm_compute; reflexivity.
Defined.

Lemma capacity_is_least_doubling_witness :
  bounded_allocator grant_all ∧
  ∃ m, main grant_all (echo_parser grant_all) (repeat x61 1024) 3084
       = Running m
       ∧ capacity m = 2048
       ∧ capacity m ≤ Z.max 1024 (2 * Z.of_nat (length (repeat x61 1024))).
Proof.
  split; [apply grant_all_bounded|].
  eexists. split; [vm_compute; reflexivity|]. split; [reflexivity|].
  refine (proj1 (capacity_is_least_doubling grant_all (echo_parser grant_all)
                   (repeat x61 1024) grant_all_bounded _ _ _));
    [apply (entry_run_reachable _ _ _ 3084); vm_compute; reflexivity
    | reflexivity].
Defined.

Lemma reallocations_logarithmic_witness :
  bounded_allocator grant_all ∧
  ∃ m, main grant_all (echo_parser grant_all) (repeat x61 1024) 3084
       = Running m
       ∧ capacity m = 1024 * 2 ^ Z.of_nat (reallocations (m_trace m))
       ∧ reallocations (m_trace m) = 1%nat.
Proof.
  split; [apply grant_all_bounded|].
  eexists. split; [vm_compute; reflexivity|].
  split; [|vm_compute; reflexivity].
  refine (proj1 (reallocations_logarithmic grant_all (echo_parser grant_all)
                   (repeat x61 1024) grant_all_bounded _ _ _));
    [apply (entry_run_reachable _ _ _ 3084); vm_compute; reflexivity
    | reflexivity].
Defined.

Lemma main_exits_under_contract_witness :
  bounded_allocator grant_all ∧
  honours_contract (echo_parser always_grant) ∧
  ∃ fuel code m,
    main grant_all (echo_parser always_grant) (bytes "abc") fuel
    = Exited code m
    ∧ (code = EXIT_SUCCESS ∨ code = EXIT_FAILURE).
Proof.
  split; [apply grant_all_bounded|].
  split; [apply echo_honours_contract|].
  apply (main_exits_under_contract grant_all (echo_parser always_grant)
           (bytes "abc") grant_all_bounded echo_honours_contract).
Defined.

Lemma shim_returns_parser_string_witness :
  ∃ h1 result,
    echo_parser grant_all
      (fst (string_value (bytes "hello") empty_heap))
      (String_val (snd (string_value (bytes "hello") empty_heap)))
    = Some (h1, result)
    ∧ ∃ v_res h3 tr,
        ocaml_parse_to_string major_heap_full (echo_parser grant_all)
          (snd (string_value (bytes "hello") empty_heap))
          (fst (string_value (bytes "hello") empty_heap))
        = Returns v_res h3 tr
        ∧ managed_text h3 v_res = Some (bytes "hello")
        ∧ h_blocks h1 !! v_res = None
        ∧ h_blocks h3
          = delete result
              (<[v_res := Block Managed (Some <$> (bytes "hello" ++ [x00]))]>
                 (h_blocks h1))
        ∧ allocations h3 = allocations h1
        ∧ releases h3 = S (releases h1).
Proof.
  eexists _, _. split; [vm_compute; reflexivity|].
  refine (proj1 (shim_returns_parser_string major_heap_full
                   (echo_parser grant_all) _ _ _ _ (bytes "hello") _ _ _) _);
    [ vm_compute; reflexivity
    | vm_compute; reflexivity
    | eexists; vm_compute; reflexivity
    | reflexivity ].
Defined.

Lemma shim_echo_any_text_witness :
  ∃ h1 tr buf,
    ocaml_parse_to_string major_heap_full (echo_parser always_grant)
      (snd (string_value (repeat x61 2048) empty_heap))
      (fst (string_value (repeat x61 2048) empty_heap))
    = Raises h1 tr
    ∧ List.filter is_free tr = []
    ∧ h_blocks h1
      = <[buf := Block Malloced
                   (Some <$> (until_null (repeat x61 2048) ++ [x00]))]>
          (h_blocks (fst (string_value (repeat x61 2048) empty_heap)))
    ∧ h_blocks (fst (string_value (repeat x61 2048) empty_heap)) !! buf = None
    ∧ allocations h1
      = S (allocations (fst (string_value (repeat x61 2048) empty_heap)))
    ∧ releases h1
      = releases (fst (string_value (repeat x61 2048) empty_heap)).
Proof.
  apply (shim_echo_any_text major_heap_full (repeat x61 2048) empty_heap).
  vm_compute; reflexivity.
Defined.

Lemma cli_echo_any_input_witness :
  bounded_allocator grant_all ∧
  ∃ fuel m,
    main grant_all (echo_parser always_grant) [x61; x00; x62] fuel
    = Exited EXIT_SUCCESS m
    ∧ stdout_of (m_trace m) = bytes "RESULT:" ++ nl ++ [x61] ++ nl.
Proof.
  split; [apply grant_all_bounded|].
  apply (cli_echo_any_input grant_all [x61; x00; x62] grant_all_bounded).
  intros k n Hn. unfold grant_all. apply Z.leb_le.
  rewrite PTRDIFF_MAX_value. simpl in Hn. lia.
Defined.
